(** * fix_errors.py: rewriting tuple-style [DbError] constructors

    A shallow embedding of [src/fix_errors.py] and the properties of its
    text transformation.

    The script reads [src/graphql.rs], applies three [re.sub] calls, one
    per error variant, and writes the result back.  Python strings are
    modelled as lists of characters.  The only characters the patterns
    inspect are ASCII, and the byte of [)] never occurs inside a
    multi-byte UTF-8 sequence, so matching on the bytes of the UTF-8
    encoding and matching on code points agree. *)

From Stdlib Require Import Ascii String List Bool Arith Lia.
Import ListNotations.

Local Open Scope list_scope.
Local Open Scope bool_scope.

(** ** Text *)

Definition text := list ascii.

(** A string literal as text. *)
Definition txt (s : string) : text := list_ascii_of_string s.

Definition dquote : ascii := ascii_of_nat 34.
Definition newline : ascii := ascii_of_nat 10.
Definition lparen : ascii := ascii_of_nat 40.
Definition rparen : ascii := ascii_of_nat 41.

(** ** The fragment of [re] the script uses

    Every pattern of the script is a literal, a capturing group around a
    greedy [+] of a negated one-character class, and a literal:
    [DbError::Name\(([^)]+)\)].  Every replacement template is literal
    text around the group reference [\1]. *)

Inductive regex_item : Type :=
| Lit (s : text)              (* literal characters; [\(] is a literal parenthesis *)
| GroupNotPlus (c : ascii).   (* [([^c]+)]: capture one or more characters other than [c] *)

Definition regex := list regex_item.

Inductive template_item : Type :=
| TLit (s : text)             (* literal replacement text *)
| TGroup (n : nat).           (* [\n] *)

Definition template := list template_item.

(** [strip_prefix p s] removes the literal [p] from the front of [s]. *)
Fixpoint strip_prefix (p s : text) : option text :=
  match p with
  | [] => Some s
  | a :: p' =>
      match s with
      | [] => None
      | b :: s' => if Ascii.eqb a b then strip_prefix p' s' else None
      end
  end.

(** The longest run of characters other than [c] at the front of [s]. *)
Fixpoint run_not (c : ascii) (s : text) : text :=
  match s with
  | [] => []
  | b :: s' => if Ascii.eqb b c then [] else b :: run_not c s'
  end.

(** Backtracking matcher anchored at the front of [s].  A greedy [+]
    first takes the longest run and gives characters back one at a time
    while the rest of the pattern fails, never going below one.  The
    result is the list of captured groups and the unconsumed text. *)
Fixpoint match_here (p : regex) (s : text) (groups : list text)
  : option (list text * text) :=
  match p with
  | [] => Some (groups, s)
  | Lit l :: p' =>
      match strip_prefix l s with
      | Some s' => match_here p' s' groups
      | None => None
      end
  | GroupNotPlus c :: p' =>
      (fix give_back (n : nat) : option (list text * text) :=
         match n with
         | 0 => None
         | S m =>
             match match_here p' (skipn n s) (groups ++ [firstn n s]) with
             | Some r => Some r
             | None => give_back m
             end
         end) (length (run_not c s))
  end.

(** Template expansion: [\n] is the [n]-th group. *)
Fixpoint expand (t : template) (groups : list text) : text :=
  match t with
  | [] => []
  | TLit l :: t' => l ++ expand t' groups
  | TGroup n :: t' => nth (n - 1) groups [] ++ expand t' groups
  end.

(** [re.sub]: scan from the left; at the leftmost position where the
    pattern matches, emit the expanded template and go on after the
    match; otherwise copy one character.  The patterns of the script
    begin with a non-empty literal, so a match is never empty and the
    text left to scan gets shorter at every step: [length s] steps of
    fuel are enough ([sub_from_fuel] below). *)
Fixpoint sub_from (fuel : nat) (p : regex) (t : template) (s : text) : text :=
  match fuel with
  | 0 => s
  | S fuel' =>
      match s with
      | [] => []
      | c :: s' =>
          match match_here p s [] with
          | Some (groups, rest) => expand t groups ++ sub_from fuel' p t rest
          | None => c :: sub_from fuel' p t s'
          end
      end
  end.

Definition re_sub (p : regex) (t : template) (s : text) : text :=
  sub_from (length s) p t s.

(** ** The transformation *)

Definition fix_error_variants (content : text) : text :=
  (* Fix DbError::InternalError *)
  let content :=
    re_sub
      [Lit (txt "DbError::InternalError("); GroupNotPlus rparen; Lit (txt ")")]
      [TLit (txt "DbError::InternalError { message: "); TGroup 1;
       TLit (txt ", context: None, debug_info: None }")]
      content in
  (* Fix DbError::InvalidData *)
  let content :=
    re_sub
      [Lit (txt "DbError::InvalidData("); GroupNotPlus rparen; Lit (txt ")")]
      [TLit (txt "DbError::InvalidData { message: "); TGroup 1;
       TLit (txt ", field: None, expected_format: None }")]
      content in
  (* Fix DbError::SignatureError *)
  let content :=
    re_sub
      [Lit (txt "DbError::SignatureError("); GroupNotPlus rparen; Lit (txt ")")]
      [TLit (txt "DbError::SignatureError { message: "); TGroup 1;
       TLit (txt ", public_key: None, signature: None }")]
      content in
  content.

(** ** The three rules, by variant *)

Inductive variant : Type := InternalError | InvalidData | SignatureError.

Definition variant_eqb (a b : variant) : bool :=
  match a, b with
  | InternalError, InternalError => true
  | InvalidData, InvalidData => true
  | SignatureError, SignatureError => true
  | _, _ => false
  end.

Definition all_variants : list variant :=
  [InternalError; InvalidData; SignatureError].

(** The enum path and variant name a rule anchors on. *)
Definition name (v : variant) : text :=
  match v with
  | InternalError => txt "DbError::InternalError"
  | InvalidData => txt "DbError::InvalidData"
  | SignatureError => txt "DbError::SignatureError"
  end.

(** The text a match begins with: the name and the opening parenthesis. *)
Definition opener (v : variant) : text := name v ++ [lparen].

(** The replacement text before and after the captured argument. *)
Definition before_arg (v : variant) : text := name v ++ txt " { message: ".

Definition after_arg (v : variant) : text :=
  match v with
  | InternalError => txt ", context: None, debug_info: None }"
  | InvalidData => txt ", field: None, expected_format: None }"
  | SignatureError => txt ", public_key: None, signature: None }"
  end.

Definition pattern (v : variant) : regex :=
  [Lit (opener v); GroupNotPlus rparen; Lit [rparen]].

Definition replacement (v : variant) : template :=
  [TLit (before_arg v); TGroup 1; TLit (after_arg v)].

Definition rule (v : variant) (s : text) : text :=
  re_sub (pattern v) (replacement v) s.

(** ** Substrings *)

Fixpoint starts (p s : text) : bool :=
  match p with
  | [] => true
  | a :: p' =>
      match s with
      | [] => false
      | b :: s' => Ascii.eqb a b && starts p' s'
      end
  end.

Fixpoint contains (p s : text) : bool :=
  starts p s ||
  match s with
  | [] => false
  | _ :: s' => contains p s'
  end.

Definition occurs (p s : text) : Prop := exists a b, s = a ++ p ++ b.

Definition has_char (c : ascii) (s : text) : bool := existsb (Ascii.eqb c) s.

Definition paren_free (s : text) : bool :=
  negb (has_char lparen s) && negb (has_char rparen s).

(** What one rule sees at the front of [s]: the opener, a non-empty run
    free of [)], and [)].  The result is the captured argument and the
    text after the match. *)
Definition call_at (v : variant) (s : text) : option (text * text) :=
  match strip_prefix (opener v) s with
  | None => None
  | Some s1 =>
      match run_not rparen s1, skipn (length (run_not rparen s1)) s1 with
      | (_ :: _) as X, c :: rest => if Ascii.eqb c rparen then Some (X, rest) else None
      | _, _ => None
      end
  end.

(** ** Lines of the end-to-end scenario *)

Definition quoted (s : string) : text := dquote :: txt s ++ [dquote].

Definition scenario_in : text :=
  txt "return Err(DbError::InternalError(" ++ quoted "boom" ++ txt "));" ++ [newline] ++
  txt "return Err(DbError::InvalidData(" ++ quoted "nope" ++ txt "));" ++ [newline] ++
  txt "return Err(DbError::SignatureError(" ++ quoted "bad sig" ++ txt "));" ++ [newline].

Definition scenario_out : text :=
  txt "return Err(DbError::InternalError { message: " ++ quoted "boom" ++
  txt ", context: None, debug_info: None });" ++ [newline] ++
  txt "return Err(DbError::InvalidData { message: " ++ quoted "nope" ++
  txt ", field: None, expected_format: None });" ++ [newline] ++
  txt "return Err(DbError::SignatureError { message: " ++ quoted "bad sig" ++
  txt ", public_key: None, signature: None });" ++ [newline].


(** ** Conditions on the input

    The captured argument of a rule stops at the first [)].  The
    conditions below say which inputs keep the rules from seeing one
    another's text. *)

(** No rule's opener occurs in [X]. *)
Definition no_opener (X : text) : bool :=
  forallb (fun v => negb (contains (opener v) X)) all_variants.

Definition arg_unnested (v : variant) (s : text) : bool :=
  match call_at v s with
  | Some (X, _) => no_opener X
  | None => true
  end.

(** [unnested s]: at no position of [s] does the argument a rule would
    capture contain the opener of a rule: calls are not nested. *)
Fixpoint unnested (s : text) : bool :=
  forallb (fun v => arg_unnested v s) all_variants &&
  match s with
  | [] => true
  | _ :: s' => unnested s'
  end.

(** [closed_before v pre]: every opener of [v] in [pre] is followed by a
    [)] inside [pre]. *)
Fixpoint closed_before (v : variant) (pre : text) : bool :=
  implb (starts (opener v) pre) (has_char rparen pre) &&
  match pre with
  | [] => true
  | _ :: pre' => closed_before v pre'
  end.

(** The call at the front of [s] is one of [InternalError] with a
    non-empty argument free of parentheses. *)
Definition plain_call (s : text) : bool :=
  match call_at InternalError s with
  | Some (X, _) => paren_free X
  | None => false
  end.

(** [only_calls s]: wherever [InternalError(] occurs in [s], it is
    preceded by [DbError::] and begins such a call. *)
Definition only_calls (s : text) : bool :=
  forallb
    (fun o =>
       implb (starts (txt "InternalError(") (skipn o s))
             ((9 <=? o) && plain_call (skipn (o - 9) s)))
    (seq 0 (length s)).

(** The same as a proposition: every occurrence of [InternalError(]
    has [DbError::] before it and a non-empty argument free of
    parentheses and a [)] after it. *)
Definition inside_calls (s : text) : Prop :=
  forall a b, s = a ++ txt "InternalError(" ++ b ->
  exists a' X r,
    a = a' ++ txt "DbError::" /\ b = X ++ rparen :: r /\
    X <> [] /\ paren_free X = true.

(** ** Layout of an input without nested calls

    Such an input is a sequence of pieces, and every rule rewrites the
    calls of its variant and nothing else. *)

Inductive item : Type :=
| Plain (c : ascii)               (* a character at which no opener begins *)
| Empty (v : variant)             (* an opener closed at once: no argument *)
| Call (v : variant) (X : text)   (* opener, argument, closing parenthesis *)
| Tail (t : text).                (* the end of the text, once no [)] is left *)

(** The rules already applied. *)
Definition applied := variant -> bool.

Definition none_applied : applied := fun _ => false.

Definition mark (k : variant) (d : applied) : applied :=
  fun v => variant_eqb v k || d v.

Definition render_item (d : applied) (it : item) : text :=
  match it with
  | Plain c => [c]
  | Empty v => opener v ++ [rparen]
  | Call v X =>
      if d v then before_arg v ++ X ++ after_arg v
      else opener v ++ X ++ [rparen]
  | Tail t => t
  end.

Fixpoint render (d : applied) (items : list item) : text :=
  match items with
  | [] => []
  | it :: rest => render_item d it ++ render d rest
  end.

Inductive layout : list item -> Prop :=
| layout_nil : layout []
| layout_tail (t : text) :
    has_char rparen t = false -> layout [Tail t]
| layout_plain (c : ascii) (rest : list item) :
    layout rest ->
    (forall v, starts (opener v) (c :: render none_applied rest) = false) ->
    layout (Plain c :: rest)
| layout_empty (v : variant) (rest : list item) :
    layout rest -> layout (Empty v :: rest)
| layout_call (v : variant) (X : text) (rest : list item) :
    layout rest -> X <> [] -> has_char rparen X = false -> no_opener X = true ->
    layout (Call v X :: rest).

(** Two texts differ at a position both have. *)
Fixpoint clash (a b : text) : bool :=
  match a, b with
  | x :: a', y :: b' => negb (Ascii.eqb x y) || clash a' b'
  | _, _ => false
  end.

(** [p] clashes with [w] from every offset in the list. *)
Definition clash_from (offsets : list nat) (w p : text) : bool :=
  forallb (fun o => clash (skipn o w) p) offsets.

(** ** The script

    The module body reads the file, transforms the content and writes it
    back.  The world is the file system, the two output streams and the
    argument vector the interpreter stores in [sys.argv]. *)

Record file : Type := mkFile {
  content : text;     (* the text [read] returns *)
  readable : bool;
  writable : bool
}.

Record world : Type := mkWorld {
  files : string -> option file;
  stdout : list text;
  sys_argv : list text
}.

(** The exceptions [open] raises. *)
Inductive os_error : Type :=
| FileNotFoundError
| PermissionError.

(** A computation changes the world and returns a value or raises. *)
Definition io (A : Type) : Type := world -> (os_error + A) * world.

Definition ret {A : Type} (a : A) : io A := fun w => (inr a, w).

Definition bind {A B : Type} (m : io A) (k : A -> io B) : io B :=
  fun w =>
    match m w with
    | (inl e, w') => (inl e, w')
    | (inr a, w') => k a w'
    end.

Notation "x <- m ;; k" := (bind m (fun x => k))
  (at level 61, m at next level, right associativity).

Definition set_file (path : string) (f : file) (w : world) : world :=
  mkWorld (fun q => if String.eqb q path then Some f else files w q)
          (stdout w) (sys_argv w).

(** [with open(path, "r") as f: content = f.read()] *)
Definition read_file (path : string) : io text :=
  fun w =>
    match files w path with
    | None => (inl FileNotFoundError, w)
    | Some f =>
        if readable f then (inr (content f), w)
        else (inl PermissionError, w)
    end.

(** [with open(path, "w") as f: f.write(data)]: opening creates or
    truncates the file, then the data is written. *)
Definition write_file (path : string) (data : text) : io unit :=
  fun w =>
    match files w path with
    | None => (inr tt, set_file path (mkFile data true true) w)
    | Some f =>
        if writable f
        then (inr tt, set_file path (mkFile data (readable f) true) w)
        else (inl PermissionError, w)
    end.

Definition print (line : text) : io unit :=
  fun w => (inr tt, mkWorld (files w) (stdout w ++ [line]) (sys_argv w)).

Definition target : string := "src/graphql.rs".

Definition main : io unit :=
  content <- read_file target ;;
  let fixed_content := fix_error_variants content in
  _ <- write_file target fixed_content ;;
  print (txt "Fixed error variants in src/graphql.rs").

(** An uncaught exception ends the process with status 1. *)
Definition exit_status {A : Type} (r : os_error + A) : nat :=
  match r with
  | inl _ => 1
  | inr _ => 0
  end.

(** Running the script with an argument vector. *)
Definition run (argv : list text) (w : world) : (os_error + unit) * world :=
  main (mkWorld (files w) (stdout w) argv).

Definition can_read (w : world) (path : string) : bool :=
  match files w path with
  | Some f => readable f
  | None => false
  end.

(** ** Example inputs *)

Definition nested_same : text :=
  txt "DbError::InternalError(DbError::InternalError(x) y)".

Definition nested_other : text :=
  txt "DbError::InternalError(DbError::InvalidData(x) )".

Definition nested_empty : text :=
  txt "DbError::InvalidData(DbError::InternalError()".

Definition format_call : text :=
  txt "DbError::InvalidData(format!(" ++ quoted "bad {}" ++ txt ", x))".

Definition format_call_out : text :=
  txt "DbError::InvalidData { message: format!(" ++ quoted "bad {}" ++
  txt ", x, field: None, expected_format: None })".

Definition empty_files : string -> option file := fun _ => None.

Definition one_file (f : file) : string -> option file :=
  fun q => if String.eqb q target then Some f else None.

(** ** Counting *)

Definition lbrace : ascii := ascii_of_nat 123.
Definition rbrace : ascii := ascii_of_nat 125.

Definition count_char (c : ascii) (s : text) : nat :=
  length (filter (Ascii.eqb c) s).

(** By how much one rewritten call lengthens the text: the struct
    literal around the argument against the opener and the [)]. *)
Definition growth (v : variant) : nat :=
  length (before_arg v) + length (after_arg v) - (length (opener v) + 1).

Definition confirmation : text := txt "Fixed error variants in src/graphql.rs".

(** * Proofs *)

(** The transformation is the three rules in declaration order. *)
Lemma fix_error_variants_rules (s : text) :
  fix_error_variants s = rule SignatureError (rule InvalidData (rule InternalError s)).
Proof. reflexivity. Qed.

(** ** Characters and prefixes *)

Lemma has_char_app (c : ascii) (a b : text) :
  has_char c (a ++ b) = has_char c a || has_char c b.
Proof. apply existsb_app. Qed.

Lemma has_char_false_In (c : ascii) (s : text) :
  has_char c s = false <-> ~ In c s.
Proof.
  unfold has_char. split.
  - intros H Hin.
    assert (E : existsb (Ascii.eqb c) s = true).
    { apply existsb_exists. exists c. split; [exact Hin | apply Ascii.eqb_refl]. }
    congruence.
  - intros H. destruct (existsb (Ascii.eqb c) s) eqn:E; [|reflexivity].
    apply existsb_exists in E. destruct E as [x [Hin Hx]].
    apply Ascii.eqb_eq in Hx. subst x. contradiction.
Qed.

Lemma strip_prefix_app (p s : text) : strip_prefix p (p ++ s) = Some s.
Proof.
  induction p as [|a p IH]; simpl; [reflexivity|].
  rewrite Ascii.eqb_refl. exact IH.
Qed.

Lemma strip_prefix_Some (p s r : text) :
  strip_prefix p s = Some r -> s = p ++ r.
Proof.
  revert s. induction p as [|a p IH]; simpl; intros s H.
  - congruence.
  - destruct s as [|b s]; [discriminate|].
    destruct (Ascii.eqb a b) eqn:E; [|discriminate].
    apply Ascii.eqb_eq in E. subst b. f_equal. apply IH. exact H.
Qed.

Lemma starts_app (p s : text) : starts p (p ++ s) = true.
Proof.
  induction p as [|a p IH]; simpl; [reflexivity|].
  rewrite Ascii.eqb_refl. exact IH.
Qed.

Lemma starts_refl (p : text) : starts p p = true.
Proof. induction p as [|a p IH]; simpl; [|rewrite Ascii.eqb_refl]; auto. Qed.

Lemma starts_true (p s : text) :
  starts p s = true -> exists r, s = p ++ r.
Proof.
  revert s. induction p as [|a p IH]; simpl; intros s H.
  - exists s. reflexivity.
  - destruct s as [|b s]; [discriminate|].
    apply andb_true_iff in H. destruct H as [E H].
    apply Ascii.eqb_eq in E. subst b.
    destruct (IH _ H) as [r ->]. exists r. reflexivity.
Qed.

Lemma starts_strip (p s : text) :
  starts p s = false -> strip_prefix p s = None.
Proof.
  intros H. destruct (strip_prefix p s) as [r|] eqn:E; [|reflexivity].
  apply strip_prefix_Some in E. subst s. rewrite starts_app in H. discriminate.
Qed.

(** A prefix of [u ++ c :: w] that does not contain [c] is a prefix of [u]. *)
Lemma starts_before (p u w : text) (c : ascii) :
  has_char c p = false -> starts p (u ++ c :: w) = true -> starts p u = true.
Proof.
  revert u. induction p as [|a p IH]; simpl; intros u Hc H; [reflexivity|].
  apply orb_false_iff in Hc. destruct Hc as [Hca Hc].
  destruct u as [|b u]; simpl in *.
  - apply andb_true_iff in H. destruct H as [E _].
    rewrite Ascii.eqb_sym in E. congruence.
  - apply andb_true_iff in H. destruct H as [E H].
    rewrite E. simpl. apply (IH u Hc H).
Qed.

(** A prefix of [u ++ w] lies inside [u] or covers it. *)
Lemma starts_app_cases (p u w : text) :
  starts p (u ++ w) = true ->
  starts p u = true \/ exists p', p = u ++ p' /\ starts p' w = true.
Proof.
  revert u. induction p as [|a p IH]; simpl; intros u H.
  - left. reflexivity.
  - destruct u as [|b u]; simpl in *.
    + right. exists (a :: p). split; [reflexivity | exact H].
    + apply andb_true_iff in H. destruct H as [E H].
      destruct (IH u H) as [H1 | [p' [-> H2]]].
      * left. rewrite E. exact H1.
      * right. apply Ascii.eqb_eq in E. subst b.
        exists p'. split; [reflexivity | exact H2].
Qed.

Lemma starts_prefix_app (p u w : text) :
  starts p u = true -> starts p (u ++ w) = true.
Proof.
  intros H. destruct (starts_true _ _ H) as [r ->].
  rewrite <- app_assoc. apply starts_app.
Qed.

(** ** Occurrences *)

Lemma contains_starts (p s : text) : starts p s = true -> contains p s = true.
Proof. intros H. destruct s; simpl; rewrite H; reflexivity. Qed.

Lemma contains_occurs (p s : text) : contains p s = true <-> occurs p s.
Proof.
  split.
  - induction s as [|c s IH]; simpl; intros H.
    + rewrite orb_false_r in H. destruct (starts_true _ _ H) as [r ->].
      exists [], r. reflexivity.
    + apply orb_true_iff in H. destruct H as [H | H].
      * destruct (starts_true _ _ H) as [r Hr]. exists [], r. exact Hr.
      * destruct (IH H) as [a [b ->]]. exists (c :: a), b. reflexivity.
  - intros [a [b ->]]. induction a as [|c a IH]; simpl.
    + apply contains_starts, starts_app.
    + rewrite IH. apply orb_true_r.
Qed.

Lemma contains_false (p s : text) : contains p s = false <-> ~ occurs p s.
Proof.
  rewrite <- contains_occurs. destruct (contains p s); split; intros H; congruence.
Qed.

Lemma occurs_cons (p s : text) (c : ascii) :
  occurs p (c :: s) -> starts p (c :: s) = true \/ occurs p s.
Proof.
  intros [a [b H]]. destruct a as [|x a]; simpl in H.
  - left. rewrite H. apply starts_app.
  - right. injection H as _ H. exists a, b. exact H.
Qed.

Lemma occurs_app_r (p a s : text) : occurs p s -> occurs p (a ++ s).
Proof.
  intros [x [y ->]]. exists (a ++ x), y. rewrite <- app_assoc. reflexivity.
Qed.

Lemma occurs_app_l (p s b : text) : occurs p s -> occurs p (s ++ b).
Proof.
  intros [x [y ->]]. exists x, (y ++ b). rewrite <- !app_assoc. reflexivity.
Qed.

Lemma starts_occurs (p s : text) : starts p s = true -> occurs p s.
Proof. intros H. destruct (starts_true _ _ H) as [r ->]. exists [], r. reflexivity. Qed.

(** An occurrence in [u ++ w] starts inside [u] or lies in [w]. *)
Lemma occurs_app_cases (p u w : text) :
  occurs p (u ++ w) ->
  (exists o, o < length u /\ starts p (skipn o u ++ w) = true) \/ occurs p w.
Proof.
  induction u as [|c u IH]; simpl; intros H.
  - right. exact H.
  - apply occurs_cons in H. destruct H as [H | H].
    + left. exists 0. split; [lia | exact H].
    + destruct (IH H) as [[o [Ho Hs]] | Hw].
      * left. exists (S o). split; [lia | exact Hs].
      * right. exact Hw.
Qed.

(** An occurrence of [p] in [u ++ c :: w], where [c] is not in [p], lies
    in [u] or in [w]. *)
Lemma occurs_split (p u w : text) (c : ascii) :
  has_char c p = false -> occurs p (u ++ c :: w) -> occurs p u \/ occurs p w.
Proof.
  intros Hc. induction u as [|x u IH]; simpl; intros H.
  - apply occurs_cons in H. destruct H as [H | H]; [|right; exact H].
    left. apply starts_occurs. apply (starts_before p [] w c Hc H).
  - apply occurs_cons in H. destruct H as [H | H].
    + left. apply starts_occurs. apply (starts_before p (x :: u) w c Hc H).
    + destruct (IH H) as [H1 | H2]; [left | right; exact H2].
      apply (occurs_app_r p [x] u H1).
Qed.

Lemma occurs_has_char (p s : text) (c : ascii) :
  occurs p s -> has_char c s = false -> has_char c p = false.
Proof.
  intros [a [b ->]] H. rewrite !has_char_app in H.
  apply orb_false_iff in H. destruct H as [_ H].
  apply orb_false_iff in H. tauto.
Qed.

(** ** The greedy run *)

Lemma run_not_clean (c : ascii) (s : text) : has_char c (run_not c s) = false.
Proof.
  induction s as [|b s IH]; simpl; [reflexivity|].
  destruct (Ascii.eqb b c) eqn:E; simpl; [reflexivity|].
  rewrite Ascii.eqb_sym, E. exact IH.
Qed.

Lemma run_not_split (c : ascii) (s : text) :
  s = run_not c s ++ skipn (length (run_not c s)) s.
Proof.
  induction s as [|b s IH]; simpl; [reflexivity|].
  destruct (Ascii.eqb b c); simpl; [reflexivity|].
  f_equal. exact IH.
Qed.

Lemma run_not_firstn (c : ascii) (s : text) :
  firstn (length (run_not c s)) s = run_not c s.
Proof.
  induction s as [|b s IH]; simpl; [reflexivity|].
  destruct (Ascii.eqb b c); simpl; [reflexivity|].
  f_equal. exact IH.
Qed.

Lemma run_not_app (c : ascii) (X r : text) :
  has_char c X = false -> run_not c (X ++ c :: r) = X.
Proof.
  induction X as [|b X IH]; simpl; intros H.
  - rewrite Ascii.eqb_refl. reflexivity.
  - apply orb_false_iff in H. destruct H as [Hb H].
    rewrite Ascii.eqb_sym, Hb. f_equal. apply IH. exact H.
Qed.

Lemma run_not_all (c : ascii) (s : text) :
  has_char c s = false -> run_not c s = s.
Proof.
  induction s as [|b s IH]; simpl; intros H; [reflexivity|].
  apply orb_false_iff in H. destruct H as [Hb H].
  rewrite Ascii.eqb_sym, Hb. f_equal. apply IH. exact H.
Qed.

(** Inside the run every position holds a character other than [c]. *)
Lemma run_not_inside (c : ascii) (s : text) (n : nat) :
  n < length (run_not c s) ->
  exists b r, skipn n s = b :: r /\ Ascii.eqb b c = false.
Proof.
  revert n. induction s as [|b s IH]; simpl; intros n Hn; [lia|].
  destruct (Ascii.eqb b c) eqn:E; simpl in Hn; [lia|].
  destruct n as [|n]; simpl.
  - exists b, s. split; [reflexivity | exact E].
  - apply IH. lia.
Qed.

(** Two ways of cutting a text at its first [c] agree. *)
Lemma first_close_unique (c : ascii) (X Y r r' : text) :
  has_char c X = false -> has_char c Y = false ->
  X ++ c :: r = Y ++ c :: r' -> X = Y /\ r = r'.
Proof.
  intros HX HY H.
  assert (E : run_not c (X ++ c :: r) = run_not c (Y ++ c :: r')) by (rewrite H; reflexivity).
  rewrite !run_not_app in E by assumption. subst Y.
  apply app_inv_head in H. injection H as H. split; [reflexivity | exact H].
Qed.

(** ** What a rule matches at the front of a text *)

Lemma call_at_Some (v : variant) (s X r : text) :
  call_at v s = Some (X, r) <->
  s = opener v ++ X ++ rparen :: r /\ X <> [] /\ has_char rparen X = false.
Proof.
  unfold call_at. split.
  - destruct (strip_prefix (opener v) s) as [s1|] eqn:E; [|discriminate].
    apply strip_prefix_Some in E.
    pose proof (run_not_split rparen s1) as Hs.
    pose proof (run_not_clean rparen s1) as Hc.
    destruct (run_not rparen s1) as [|x X0] eqn:ER; [discriminate|].
    destruct (skipn (length (x :: X0)) s1) as [|c rest] eqn:EK; [discriminate|].
    destruct (Ascii.eqb c rparen) eqn:Ec; [|discriminate].
    apply Ascii.eqb_eq in Ec. subst c. intros H. injection H as <- <-.
    split; [|split].
    + rewrite E. apply f_equal. exact Hs.
    + discriminate.
    + exact Hc.
  - intros [-> [HX Hc]]. rewrite strip_prefix_app.
    rewrite run_not_app by exact Hc.
    rewrite skipn_app, skipn_all, Nat.sub_diag. simpl.
    destruct X as [|x X]; [congruence | reflexivity].
Qed.

Lemma call_at_hit (v : variant) (X r : text) :
  X <> [] -> has_char rparen X = false ->
  call_at v (opener v ++ X ++ rparen :: r) = Some (X, r).
Proof. intros HX Hc. apply call_at_Some. auto. Qed.

Lemma call_at_starts (v : variant) (s : text) :
  starts (opener v) s = false -> call_at v s = None.
Proof. intros H. unfold call_at. rewrite (starts_strip _ _ H). reflexivity. Qed.

Lemma call_at_shorter (v : variant) (s X r : text) :
  call_at v s = Some (X, r) -> length r < length s.
Proof.
  intros H. apply call_at_Some in H. destruct H as [-> _].
  rewrite !length_app. simpl. lia.
Qed.

(** Without [)] no rule matches. *)
Lemma call_at_no_close (v : variant) (s : text) :
  has_char rparen s = false -> call_at v s = None.
Proof.
  intros H. destruct (call_at v s) as [[X r]|] eqn:E; [|reflexivity].
  apply call_at_Some in E. destruct E as [-> _].
  rewrite !has_char_app in H. simpl in H.
  rewrite !orb_true_r in H. discriminate.
Qed.

(** The backtracking matcher on the pattern of a rule computes [call_at]:
    giving characters of the run back never helps, since the character
    that would have to be [)] is then one of the run. *)
Lemma match_here_pattern (v : variant) (s : text) :
  match_here (pattern v) s [] =
  match call_at v s with
  | Some (X, r) => Some ([X], r)
  | None => None
  end.
Proof.
  unfold pattern, call_at. cbn [match_here].
  destruct (strip_prefix (opener v) s) as [s1|]; [|reflexivity].
  set (give_back := fix give_back (n : nat) : option (list text * text) :=
         match n with
         | 0 => None
         | S m =>
             match
               match strip_prefix [rparen] (skipn n s1) with
               | Some s' => Some ([] ++ [firstn n s1], s')
               | None => None
               end
             with
             | Some r => Some r
             | None => give_back m
             end
         end).
  assert (Hlow : forall n, n < length (run_not rparen s1) -> give_back n = None).
  { induction n as [|n IH]; intros Hn; [reflexivity|].
    cbn [give_back].
    destruct (run_not_inside rparen s1 (S n) Hn) as [b [r [Hk Hb]]].
    rewrite Hk. cbn [strip_prefix]. rewrite Ascii.eqb_sym, Hb.
    apply IH. lia. }
  pose proof (run_not_firstn rparen s1) as Hf.
  destruct (run_not rparen s1) as [|x X] eqn:ER; [reflexivity|].
  cbn [length] in *. cbn [give_back].
  rewrite Hf.
  destruct (skipn (S (length X)) s1) as [|c rest]; cbn [strip_prefix].
  - apply Hlow. lia.
  - rewrite Ascii.eqb_sym. destruct (Ascii.eqb c rparen); [reflexivity|].
    apply Hlow. lia.
Qed.

(** ** Equations of [rule] *)

Lemma sub_from_fuel (v : variant) (n m : nat) (s : text) :
  length s <= n -> length s <= m ->
  sub_from n (pattern v) (replacement v) s = sub_from m (pattern v) (replacement v) s.
Proof.
  revert m s. induction n as [|n IH]; intros m s Hn Hm.
  - destruct s; [|simpl in Hn; lia]. destruct m; reflexivity.
  - destruct m as [|m].
    + destruct s; [reflexivity | simpl in Hm; lia].
    + cbn [sub_from]. destruct s as [|c s]; [reflexivity|].
      rewrite match_here_pattern.
      destruct (call_at v (c :: s)) as [[X r]|] eqn:E.
      * apply call_at_shorter in E. simpl in *. f_equal. apply IH; lia.
      * simpl in *. f_equal. apply IH; lia.
Qed.

Lemma rule_nil (v : variant) : rule v [] = [].
Proof. reflexivity. Qed.

Lemma rule_skip (v : variant) (c : ascii) (s : text) :
  call_at v (c :: s) = None -> rule v (c :: s) = c :: rule v s.
Proof.
  intros H. unfold rule, re_sub. cbn [length sub_from].
  rewrite match_here_pattern, H. reflexivity.
Qed.

Lemma rule_hit (v : variant) (s X r : text) :
  call_at v s = Some (X, r) ->
  rule v s = before_arg v ++ X ++ after_arg v ++ rule v r.
Proof.
  intros H. pose proof (call_at_shorter _ _ _ _ H) as Hl.
  unfold rule, re_sub. destruct s as [|c s]; [simpl in Hl; lia|].
  cbn [length sub_from]. rewrite match_here_pattern, H.
  cbn [replacement expand nth Nat.sub]. rewrite app_nil_r, <- !app_assoc.
  do 3 f_equal. apply sub_from_fuel; simpl in *; lia.
Qed.

(** Induction along the scan of one rule. *)
Lemma scan_ind (v : variant) (P : text -> Prop) :
  P [] ->
  (forall c s, call_at v (c :: s) = None -> P s -> P (c :: s)) ->
  (forall X r, X <> [] -> has_char rparen X = false -> P r ->
               P (opener v ++ X ++ rparen :: r)) ->
  forall s, P s.
Proof.
  intros Hnil Hskip Hhit s.
  remember (length s) as n eqn:Hn. revert s Hn.
  induction n as [n IH] using lt_wf_ind. intros s Hn.
  destruct s as [|c s]; [exact Hnil|].
  destruct (call_at v (c :: s)) as [[X r]|] eqn:E.
  - pose proof (call_at_shorter _ _ _ _ E) as Hl.
    apply call_at_Some in E. destruct E as [-> [HX Hc]].
    apply Hhit; try assumption. apply (IH (length r)); [lia | reflexivity].
  - apply Hskip; [exact E|]. apply (IH (length s)); [simpl in Hn; lia | reflexivity].
Qed.

(** A text without [)] is left alone. *)
Lemma rule_no_close (v : variant) (s : text) :
  has_char rparen s = false -> rule v s = s.
Proof.
  induction s as [|c s IH]; intros H; [reflexivity|].
  rewrite rule_skip by (apply call_at_no_close; exact H).
  f_equal. apply IH. simpl in H. apply orb_false_iff in H. tauto.
Qed.

(** A stretch of text no match begins in is copied. *)
Lemma rule_pass (v : variant) (W t : text) :
  (forall o, o < length W -> call_at v (skipn o W ++ t) = None) ->
  rule v (W ++ t) = W ++ rule v t.
Proof.
  induction W as [|c W IH]; intros H; [reflexivity|].
  simpl. rewrite rule_skip by (apply (H 0); simpl; lia).
  f_equal. apply IH. intros o Ho. apply (H (S o)). simpl. lia.
Qed.

(** ** Clashing texts *)

Lemma clash_starts (a b t : text) :
  clash a b = true -> starts b (a ++ t) = false.
Proof.
  revert b. induction a as [|x a IH]; intros b H; [discriminate|].
  destruct b as [|y b]; [discriminate|]. simpl in *.
  rewrite (Ascii.eqb_sym y x).
  destruct (Ascii.eqb x y); simpl in *; [|reflexivity].
  apply IH. exact H.
Qed.

Lemma clash_starts_l (a b t : text) :
  clash a b = true -> starts a (b ++ t) = false.
Proof.
  revert b. induction a as [|x a IH]; intros b H; [discriminate|].
  destruct b as [|y b]; [discriminate|]. simpl in *.
  destruct (Ascii.eqb x y); simpl in *; [|reflexivity].
  apply IH. exact H.
Qed.

Lemma clash_from_seq (lo len : nat) (w p : text) (o : nat) :
  clash_from (seq lo len) w p = true -> lo <= o < lo + len ->
  clash (skipn o w) p = true.
Proof.
  unfold clash_from. intros H Ho.
  rewrite forallb_forall in H. apply H. apply in_seq. exact Ho.
Qed.

(** Facts about the literal texts of the three rules, by evaluation. *)

Ltac by_evaluation := vm_compute; reflexivity.

Lemma opener_no_close (v : variant) : has_char rparen (opener v) = false.
Proof. destruct v; reflexivity. Qed.

Lemma opener_no_space (v : variant) : has_char " "%char (opener v) = false.
Proof. destruct v; reflexivity. Qed.

Lemma opener_no_comma (v : variant) : has_char ","%char (opener v) = false.
Proof. destruct v; reflexivity. Qed.

Lemma after_arg_comma (v : variant) :
  exists B, after_arg v = ","%char :: B.
Proof. destruct v; eexists; reflexivity. Qed.

Lemma before_arg_name (v : variant) :
  before_arg v = name v ++ " "%char :: txt "{ message: ".
Proof. destruct v; reflexivity. Qed.

Lemma before_arg_no_close (v : variant) : has_char rparen (before_arg v) = false.
Proof. destruct v; reflexivity. Qed.

Lemma after_arg_no_close (v : variant) : has_char rparen (after_arg v) = false.
Proof. destruct v; reflexivity. Qed.

(** An opener does not begin inside an opener. *)
Lemma opener_inside_opener (v k : variant) :
  clash_from (seq 1 (length (opener v) - 1)) (opener v) (opener k) = true.
Proof. destruct v, k; by_evaluation. Qed.

Lemma opener_inside_empty (v k : variant) :
  clash_from (seq 1 (length (opener v))) (opener v ++ [rparen]) (opener k) = true.
Proof. destruct v, k; by_evaluation. Qed.

Lemma opener_other (v k : variant) :
  variant_eqb v k = false -> clash (opener v) (opener k) = true.
Proof. destruct v, k; intros H; try discriminate H; by_evaluation. Qed.

Lemma opener_in_before (v k : variant) :
  clash_from (seq 0 (length (before_arg v))) (before_arg v) (opener k) = true.
Proof. destruct v, k; by_evaluation. Qed.

Lemma opener_in_after (v k : variant) :
  clash_from (seq 0 (length (after_arg v))) (after_arg v) (opener k) = true.
Proof. destruct v, k; by_evaluation. Qed.

Lemma variant_eqb_eq (a b : variant) : variant_eqb a b = true <-> a = b.
Proof. destruct a, b; simpl; split; intros H; congruence. Qed.

Lemma variant_eqb_refl (a : variant) : variant_eqb a a = true.
Proof. destruct a; reflexivity. Qed.

Lemma no_opener_spec (X : text) (v : variant) :
  no_opener X = true -> ~ occurs (opener v) X.
Proof.
  unfold no_opener, all_variants. simpl. rewrite !andb_true_iff, !negb_true_iff.
  intros [H1 [H2 [H3 _]]]. apply contains_false. destruct v; assumption.
Qed.

Lemma no_opener_intro (X : text) :
  (forall v, ~ occurs (opener v) X) -> no_opener X = true.
Proof.
  intros H. unfold no_opener, all_variants. simpl.
  rewrite !andb_true_iff, !negb_true_iff. repeat split; apply contains_false, H.
Qed.

Lemma occurs_skipn (p s : text) (o : nat) :
  starts p (skipn o s) = true -> occurs p s.
Proof.
  intros H. rewrite <- (firstn_skipn o s). apply occurs_app_r, starts_occurs, H.
Qed.

(** No opener begins inside [A ++ X ++ B] when it clashes with [A] and
    [B] from every offset, cannot reach across the first character of
    [B], and does not occur in [X]. *)
Lemma opener_not_inside (P A X B t : text) (p : ascii) (B' : text) :
  B = p :: B' ->
  clash_from (seq 0 (length A)) A P = true ->
  clash_from (seq 0 (length B)) B P = true ->
  has_char p P = false ->
  ~ occurs P X ->
  forall o, o < length (A ++ X ++ B) ->
            starts P (skipn o (A ++ X ++ B) ++ t) = false.
Proof.
  intros HB HA HBc Hp HX o Ho.
  rewrite !length_app in Ho.
  destruct (Nat.lt_ge_cases o (length A)) as [H1 | H1].
  - rewrite skipn_app. replace (o - length A) with 0 by lia.
    rewrite skipn_O, <- app_assoc. apply clash_starts.
    apply (clash_from_seq 0 (length A)); [exact HA | lia].
  - rewrite skipn_app, skipn_all2 by lia. simpl.
    destruct (Nat.lt_ge_cases (o - length A) (length X)) as [H2 | H2].
    + rewrite skipn_app. replace (o - length A - length X) with 0 by lia.
      rewrite skipn_O, <- app_assoc.
      destruct (starts P (skipn (o - length A) X ++ B ++ t)) eqn:E; [|reflexivity].
      exfalso. apply HX. rewrite HB in E. simpl in E.
      apply starts_before in E; [|exact Hp].
      apply (occurs_skipn _ _ _ E).
    + rewrite skipn_app, skipn_all2 by lia. simpl.
      apply clash_starts.
      apply (clash_from_seq 0 (length B)); [exact HBc | lia].
Qed.

(** ** A rule on a laid-out text *)

Lemma render_app (d : applied) (i1 i2 : list item) :
  render d (i1 ++ i2) = render d i1 ++ render d i2.
Proof.
  induction i1 as [|it i1 IH]; simpl; [reflexivity|].
  rewrite IH, app_assoc. reflexivity.
Qed.

Lemma render_ext (d d' : applied) (items : list item) :
  (forall v, d v = d' v) -> render d items = render d' items.
Proof.
  intros H. induction items as [|it items IH]; simpl; [reflexivity|].
  rewrite IH. f_equal. destruct it; simpl; try reflexivity.
  rewrite H. reflexivity.
Qed.

(** A text without spaces that begins a rendering also begins the
    original text: the renderings first differ where a [(] has become
    a space. *)
Lemma starts_render (d : applied) (items : list item) (p : text) :
  has_char " "%char p = false ->
  starts p (render d items) = true ->
  starts p (render none_applied items) = true.
Proof.
  revert p. induction items as [|it items IH]; intros p Hp H; [exact H|].
  cbn [render] in *.
  assert (Hsame : forall W, starts p (W ++ render d items) = true ->
                            starts p (W ++ render none_applied items) = true).
  { intros W HW. apply starts_app_cases in HW.
    destruct HW as [HW | [p' [-> HW]]].
    - apply starts_prefix_app. exact HW.
    - rewrite has_char_app in Hp. apply orb_false_iff in Hp.
      assert (E : starts p' (render none_applied items) = true)
        by (apply IH; tauto).
      destruct (starts_true _ _ E) as [r ->].
      rewrite app_assoc. apply starts_app. }
  destruct it as [c | v | v X | t]; cbn [render_item] in *;
    try (apply Hsame; exact H).
  destruct (d v); [|apply Hsame; exact H].
  unfold none_applied. rewrite before_arg_name in H.
  rewrite <- !app_assoc in H. simpl in H.
  apply starts_before in H; [|exact Hp].
  unfold opener. rewrite <- !app_assoc. apply starts_prefix_app. exact H.
Qed.

Lemma mark_same (k : variant) (d : applied) : mark k d k = true.
Proof. unfold mark. rewrite variant_eqb_refl. reflexivity. Qed.

Lemma mark_other (k v : variant) (d : applied) :
  variant_eqb v k = false -> mark k d v = d v.
Proof. unfold mark. intros ->. reflexivity. Qed.

(** On a laid-out text a rule rewrites the calls of its variant that
    have not been rewritten, and nothing else. *)
Lemma rule_render (k : variant) (items : list item) :
  layout items ->
  forall d, rule k (render d items) = render (mark k d) items.
Proof.
  induction 1 as [| t Ht | c rest Hl IH Hc | v rest Hl IH | v X rest Hl IH HX Hcl Hno];
    intros d; cbn [render render_item].
  - reflexivity.
  - rewrite app_nil_r. apply rule_no_close. exact Ht.
  - simpl. rewrite rule_skip; [rewrite IH; reflexivity|].
    apply call_at_starts.
    destruct (starts (opener k) (c :: render d rest)) eqn:E; [|reflexivity].
    apply (starts_render d (Plain c :: rest)) in E; [|apply opener_no_space].
    cbn [render render_item] in E. simpl in E. rewrite (Hc k) in E. discriminate.
  - rewrite rule_pass; [rewrite IH; reflexivity|].
    intros o Ho. destruct o as [|o].
    + rewrite skipn_O. destruct (variant_eqb v k) eqn:E.
      * apply variant_eqb_eq in E. subst v.
        destruct (call_at k ((opener k ++ [rparen]) ++ render d rest))
          as [[Y r]|] eqn:EC; [|reflexivity].
        exfalso. apply call_at_Some in EC. destruct EC as [EC [HY HYc]].
        rewrite <- app_assoc in EC. apply app_inv_head in EC.
        destruct Y as [|y Y]; [congruence|].
        simpl in EC. injection EC as Ey _. subst y.
        simpl in HYc. discriminate.
      * apply call_at_starts. rewrite <- app_assoc. apply clash_starts.
        apply opener_other. exact E.
    + apply call_at_starts. apply clash_starts.
      apply (clash_from_seq 1 (length (opener v))); [apply opener_inside_empty|].
      rewrite length_app in Ho. simpl in Ho. lia.
  - destruct (d v) eqn:Ed.
    + (* already rewritten: the rule passes over the struct literal *)
      assert (Em : mark k d v = true) by (unfold mark; rewrite Ed; apply orb_true_r).
      rewrite Em. rewrite rule_pass; [rewrite IH; reflexivity|].
      intros o Ho. apply call_at_starts.
      destruct (after_arg_comma v) as [B HB].
      apply (opener_not_inside (opener k) (before_arg v) X (after_arg v) _ _ B HB).
      * apply opener_in_before.
      * apply opener_in_after.
      * apply opener_no_comma.
      * apply no_opener_spec. exact Hno.
      * exact Ho.
    + destruct (variant_eqb v k) eqn:E.
      * (* the call of this rule *)
        apply variant_eqb_eq in E. subst v. rewrite mark_same.
        rewrite <- !app_assoc. simpl.
        rewrite (rule_hit k _ X (render d rest)) by (apply call_at_hit; assumption).
        rewrite IH. reflexivity.
      * (* the call of another rule *)
        rewrite (mark_other k v d E), Ed.
        rewrite rule_pass; [rewrite IH; reflexivity|].
        intros o Ho. apply call_at_starts.
        apply (opener_not_inside (opener k) (opener v) X [rparen] _ rparen [] eq_refl).
        -- destruct (length (opener v)) as [|n] eqn:En; [destruct v; discriminate En|].
           unfold clash_from. cbn [seq forallb]. rewrite skipn_O.
           rewrite (opener_other v k E). simpl.
           pose proof (opener_inside_opener v k) as Hi. rewrite En in Hi.
           simpl in Hi. rewrite Nat.sub_0_r in Hi. exact Hi.
        -- destruct k; reflexivity.
        -- apply opener_no_close.
        -- apply no_opener_spec. exact Hno.
        -- exact Ho.
Qed.

(** ** Every input without nested calls has a layout *)

Lemma unnested_eq (s : text) :
  unnested s =
  forallb (fun v => arg_unnested v s) all_variants &&
  match s with
  | [] => true
  | _ :: s' => unnested s'
  end.
Proof. destruct s; reflexivity. Qed.

Lemma unnested_suffix (a b : text) : unnested (a ++ b) = true -> unnested b = true.
Proof.
  induction a as [|c a IH]; intros H; [exact H|].
  rewrite unnested_eq in H. apply andb_true_iff in H. apply IH. tauto.
Qed.

Lemma unnested_head (s : text) (v : variant) (X r : text) :
  unnested s = true -> call_at v s = Some (X, r) -> no_opener X = true.
Proof.
  intros H E.
  assert (Hf : forallb (fun v => arg_unnested v s) all_variants = true).
  { rewrite unnested_eq in H. apply andb_true_iff in H. tauto. }
  rewrite forallb_forall in Hf.
  assert (Hv : In v all_variants) by (destruct v; simpl; tauto).
  specialize (Hf v Hv). unfold arg_unnested in Hf. rewrite E in Hf. exact Hf.
Qed.

Lemma first_close (c : ascii) (s : text) :
  has_char c s = true ->
  exists X r, s = X ++ c :: r /\ has_char c X = false.
Proof.
  induction s as [|b s IH]; simpl; intros H; [discriminate|].
  destruct (Ascii.eqb c b) eqn:E.
  - apply Ascii.eqb_eq in E. subst b. exists [], s. split; reflexivity.
  - destruct (IH H) as [X [r [-> HX]]].
    exists (b :: X), r. split; [reflexivity|]. simpl. rewrite E. exact HX.
Qed.

Lemma starts_nil (p : text) : starts p [] = true -> p = [].
Proof. destruct p; [reflexivity | discriminate]. Qed.

Lemma opener_cases (x : text) :
  (exists v, starts (opener v) x = true) \/ (forall v, starts (opener v) x = false).
Proof.
  destruct (starts (opener InternalError) x) eqn:E1; [left; eexists; exact E1|].
  destruct (starts (opener InvalidData) x) eqn:E2; [left; eexists; exact E2|].
  destruct (starts (opener SignatureError) x) eqn:E3; [left; eexists; exact E3|].
  right. intros v. destruct v; assumption.
Qed.

Lemma opener_length (v : variant) : 0 < length (opener v).
Proof. destruct v; simpl; lia. Qed.

(** The layout of the text before a piece that begins with an opener and
    is closed later, or before the end of the text. *)
Lemma layout_before (i2 : list item) (s : text) :
  layout i2 -> render none_applied i2 = s ->
  (i2 = [] \/ exists v s', s = opener v ++ s' /\ has_char rparen s' = true) ->
  forall n pre, length pre <= n -> unnested (pre ++ s) = true ->
  exists i1, layout (i1 ++ i2) /\ render none_applied i1 = pre.
Proof.
  intros Hl Hr Hs. induction n as [|n IH]; intros pre Hn Hu.
  { destruct pre; [|simpl in Hn; lia]. exists []. split; [exact Hl | reflexivity]. }
  destruct pre as [|c p'].
  { exists []. split; [exact Hl | reflexivity]. }
  destruct (has_char rparen ((c :: p') ++ s)) eqn:Hx.
  - destruct (opener_cases ((c :: p') ++ s)) as [[j Hj] | Hnone].
    + destruct (starts (opener j) (c :: p')) eqn:Hpre.
      * (* an opener inside the text before *)
        destruct (starts_true _ _ Hpre) as [p1 Ep1].
        destruct (has_char rparen p1) eqn:Hp1.
        -- destruct (first_close _ _ Hp1) as [X [p2 [-> HX]]].
           assert (Hlen : length p2 <= n).
           { rewrite Ep1 in Hn. rewrite !length_app in Hn. simpl in Hn. lia. }
           assert (Hu2 : unnested (p2 ++ s) = true).
           { apply (unnested_suffix (opener j ++ X ++ [rparen])).
             rewrite Ep1 in Hu. rewrite <- !app_assoc in *. exact Hu. }
           destruct (IH p2 Hlen Hu2) as [i1 [Hi1 Ei1]].
           destruct X as [|x X].
           ++ exists (Empty j :: i1). split.
              ** simpl. apply layout_empty. exact Hi1.
              ** cbn [render render_item]. rewrite Ei1, Ep1, <- app_assoc. reflexivity.
           ++ exists (Call j (x :: X) :: i1). split.
              ** simpl. apply layout_call; [exact Hi1 | discriminate | exact HX |].
                 apply (unnested_head _ j (x :: X) (p2 ++ s) Hu).
                 rewrite Ep1, <- !app_assoc. apply call_at_hit; [discriminate | exact HX].
              ** cbn [render render_item]. unfold none_applied at 1.
                 rewrite Ei1, Ep1, <- !app_assoc. reflexivity.
        -- (* the call would have to close inside [s] *)
           exfalso. destruct Hs as [-> | [v [s' [Es Hs']]]].
           ++ simpl in Hr. subst s. rewrite app_nil_r, Ep1 in Hx.
              rewrite has_char_app, opener_no_close, Hp1 in Hx. discriminate.
           ++ destruct (first_close _ _ Hs') as [Y [r' [-> HY]]].
              assert (EC : call_at j ((c :: p') ++ s)
                           = Some (p1 ++ opener v ++ Y, r')).
              { rewrite Ep1, Es, <- !app_assoc. apply call_at_Some.
                split; [|split].
                - rewrite <- !app_assoc. reflexivity.
                - pose proof (opener_length v). destruct p1; [|discriminate].
                  destruct (opener v); [simpl in *; lia | discriminate].
                - rewrite !has_char_app, Hp1, opener_no_close, HY. reflexivity. }
              apply (unnested_head _ _ _ _ Hu) in EC.
              apply (no_opener_spec _ v) in EC. apply EC.
              exists p1, Y. reflexivity.
      * (* an opener across the boundary *)
        exfalso. apply starts_app_cases in Hj. rewrite Hpre in Hj.
        destruct Hj as [Hj | [p'' [Ej Hj]]]; [discriminate|].
        destruct Hs as [-> | [v [s' [Es _]]]].
        -- simpl in Hr. subst s. apply starts_nil in Hj. subst p''.
           rewrite app_nil_r in Ej. rewrite <- Ej, starts_refl in Hpre. discriminate.
        -- assert (Ek : skipn (length (c :: p')) (opener j) = p'').
           { rewrite Ej, skipn_app, skipn_all, Nat.sub_diag. reflexivity. }
           assert (Hlt : length (c :: p') < length (opener j)).
           { destruct p'' as [|y p''].
             - rewrite app_nil_r in Ej. rewrite <- Ej, starts_refl in Hpre. discriminate.
             - rewrite Ej, length_app. simpl. lia. }
           pose proof (clash_from_seq 1 _ _ _ (length (c :: p'))
                         (opener_inside_opener j v)) as Hc.
           rewrite Ek in Hc. rewrite Es in Hj.
           rewrite clash_starts_l in Hj; [discriminate|].
           apply Hc. simpl in *. lia.
    + (* no opener here: a plain character *)
      assert (Hu' : unnested (p' ++ s) = true) by (apply (unnested_suffix [c]); exact Hu).
      destruct (IH p' ltac:(simpl in Hn; lia) Hu') as [i1 [Hi1 Ei1]].
      exists (Plain c :: i1). split.
      * simpl. apply layout_plain; [exact Hi1|].
        intros v. rewrite render_app, Ei1, Hr. apply (Hnone v).
      * cbn [render render_item]. rewrite Ei1. reflexivity.
  - (* no closing parenthesis is left *)
    destruct Hs as [-> | [v [s' [Es Hs']]]].
    + simpl in Hr. subst s. rewrite app_nil_r in Hx.
      exists [Tail (c :: p')]. split.
      * simpl. apply layout_tail. exact Hx.
      * simpl. rewrite app_nil_r. reflexivity.
    + exfalso. rewrite Es, !has_char_app, Hs', !orb_true_r in Hx. discriminate.
Qed.

Lemma layout_exists (x : text) :
  unnested x = true -> exists items, layout items /\ render none_applied items = x.
Proof.
  intros H.
  destruct (layout_before [] [] layout_nil eq_refl (or_introl eq_refl)
              (length x) x (le_n _)) as [i1 [Hi1 Ei1]].
  - rewrite app_nil_r. exact H.
  - exists i1. rewrite app_nil_r in Hi1. split; assumption.
Qed.

(** The three rules, in any succession, on a laid-out text. *)
Lemma rules_render (a b c : variant) (items : list item) (d : applied) :
  layout items ->
  rule c (rule b (rule a (render d items))) = render (mark c (mark b (mark a d))) items.
Proof. intros H. rewrite !rule_render by exact H. reflexivity. Qed.

Lemma fix_error_variants_render (items : list item) :
  layout items ->
  fix_error_variants (render none_applied items) = render (fun _ => true) items.
Proof.
  intros H. rewrite fix_error_variants_rules, rules_render by exact H.
  apply render_ext. intros v. destruct v; reflexivity.
Qed.

(** ** What a rule keeps and what it cannot create *)

(** A text without [(] that begins the input begins the output. *)
Lemma rule_keeps_start (k : variant) (t : text) :
  forall p, has_char lparen p = false ->
            starts p t = true -> starts p (rule k t) = true.
Proof.
  induction t as [| c s Hc IH | X r HX HXc IH] using (scan_ind k); intros p Hp H.
  - exact H.
  - rewrite rule_skip by exact Hc. destruct p as [|x p]; [reflexivity|].
    simpl in *. apply andb_true_iff in H. destruct H as [E H]. rewrite E. simpl.
    apply orb_false_iff in Hp. apply IH; tauto.
  - rewrite (rule_hit k _ X r) by (apply call_at_hit; assumption).
    unfold opener in H. rewrite <- app_assoc in H. simpl in H.
    apply starts_before in H; [|exact Hp].
    unfold before_arg. rewrite <- app_assoc. apply starts_prefix_app. exact H.
Qed.

(** A text without spaces that begins the output begins the input. *)
Lemma rule_start_back (k : variant) (t : text) :
  forall p, has_char " "%char p = false ->
            starts p (rule k t) = true -> starts p t = true.
Proof.
  induction t as [| c s Hc IH | X r HX HXc IH] using (scan_ind k); intros p Hp H.
  - exact H.
  - rewrite rule_skip in H by exact Hc. destruct p as [|x p]; [reflexivity|].
    simpl in *. apply andb_true_iff in H. destruct H as [E H]. rewrite E. simpl.
    apply orb_false_iff in Hp. apply IH; tauto.
  - rewrite (rule_hit k _ X r) in H by (apply call_at_hit; assumption).
    rewrite before_arg_name, <- app_assoc in H. simpl in H.
    apply starts_before in H; [|exact Hp].
    unfold opener. rewrite <- app_assoc. apply starts_prefix_app. exact H.
Qed.

(** A text free of parentheses that occurs in the input occurs in the
    output: a rule only replaces parentheses. *)
Lemma rule_keeps (k : variant) (p t : text) :
  paren_free p = true -> occurs p t -> occurs p (rule k t).
Proof.
  intros Hp. unfold paren_free in Hp. apply andb_true_iff in Hp.
  rewrite !negb_true_iff in Hp. destruct Hp as [Hl Hr].
  induction t as [| c s Hc IH | X r HX HXc IH] using (scan_ind k); intros H.
  - exact H.
  - rewrite rule_skip by exact Hc. apply occurs_cons in H. destruct H as [H | H].
    + apply starts_occurs. rewrite <- (rule_skip k c s Hc).
      apply rule_keeps_start; assumption.
    + apply (occurs_app_r p [c]). apply IH. exact H.
  - rewrite (rule_hit k _ X r) by (apply call_at_hit; assumption).
    unfold opener in H. rewrite <- app_assoc in H. simpl in H.
    apply occurs_split in H; [|exact Hl]. destruct H as [H | H].
    + unfold before_arg. rewrite <- app_assoc. apply occurs_app_l. exact H.
    + apply occurs_split in H; [|exact Hr]. destruct H as [H | H].
      * apply occurs_app_r. apply occurs_app_l. exact H.
      * apply occurs_app_r. apply occurs_app_r. apply occurs_app_r. apply IH. exact H.
Qed.

(** [InternalError(] does not begin inside the text a rule writes. *)
Lemma needle_in_before (v : variant) :
  clash_from (seq 0 (length (before_arg v))) (before_arg v) (txt "InternalError(") = true.
Proof. destruct v; by_evaluation. Qed.

Lemma needle_in_after (v : variant) :
  clash_from (seq 0 (length (after_arg v))) (after_arg v) (txt "InternalError(") = true.
Proof. destruct v; by_evaluation. Qed.

Lemma needle_not_written (v : variant) (X t : text) (o : nat) :
  ~ occurs (txt "InternalError(") X ->
  o < length (before_arg v ++ X ++ after_arg v) ->
  starts (txt "InternalError(") (skipn o (before_arg v ++ X ++ after_arg v) ++ t) = false.
Proof.
  intros HX Ho. destruct (after_arg_comma v) as [B HB].
  apply (opener_not_inside _ (before_arg v) X (after_arg v) t _ B HB).
  - apply needle_in_before.
  - apply needle_in_after.
  - reflexivity.
  - exact HX.
  - exact Ho.
Qed.

(** A rule creates no occurrence of [InternalError(]. *)
Lemma rule_no_new (k : variant) (t : text) :
  occurs (txt "InternalError(") (rule k t) -> occurs (txt "InternalError(") t.
Proof.
  induction t as [| c s Hc IH | X r HX HXc IH] using (scan_ind k); intros H.
  - exact H.
  - rewrite rule_skip in H by exact Hc. apply occurs_cons in H. destruct H as [H | H].
    + apply starts_occurs. rewrite <- (rule_skip k c s Hc) in H.
      apply (rule_start_back k); [reflexivity | exact H].
    + apply (occurs_app_r _ [c]). apply IH. exact H.
  - rewrite (rule_hit k _ X r) in H by (apply call_at_hit; assumption).
    destruct (contains (txt "InternalError(") X) eqn:EX.
    + apply contains_occurs in EX. apply occurs_app_r, occurs_app_l. exact EX.
    + apply contains_false in EX.
      rewrite !app_assoc in H. rewrite <- (app_assoc (before_arg k)) in H.
      apply occurs_app_cases in H. destruct H as [[o [Ho H]] | H].
      * rewrite needle_not_written in H by assumption. discriminate.
      * apply occurs_app_r. apply occurs_app_r.
        apply (occurs_app_r _ [rparen]). apply IH. exact H.
Qed.

(** ** The call of a rule that is reached by the scan *)

Lemma closed_before_eq (v : variant) (pre : text) :
  closed_before v pre =
  implb (starts (opener v) pre) (has_char rparen pre) &&
  match pre with
  | [] => true
  | _ :: pre' => closed_before v pre'
  end.
Proof. destruct pre; reflexivity. Qed.

Lemma closed_before_suffix (v : variant) (a b : text) :
  closed_before v (a ++ b) = true -> closed_before v b = true.
Proof.
  induction a as [|c a IH]; intros H; [exact H|].
  rewrite closed_before_eq in H. apply andb_true_iff in H. apply IH. tauto.
Qed.

Lemma closed_before_head (v : variant) (pre : text) :
  closed_before v pre = true -> starts (opener v) pre = true ->
  has_char rparen pre = true.
Proof.
  intros H Hs. rewrite closed_before_eq in H. apply andb_true_iff in H.
  destruct H as [H _]. rewrite Hs in H. exact H.
Qed.

(** When every earlier opener of the rule is closed before the call, the
    scan reaches the call and rewrites it. *)
Lemma rule_call_converted (v : variant) (X post : text) :
  X <> [] -> has_char rparen X = false ->
  forall n pre, length pre <= n -> closed_before v pre = true ->
  exists pre',
    rule v (pre ++ opener v ++ X ++ rparen :: post)
    = pre' ++ before_arg v ++ X ++ after_arg v ++ rule v post.
Proof.
  intros HX HXc. induction n as [|n IH]; intros pre Hn Hcl.
  { destruct pre; [|simpl in Hn; lia]. exists [].
    apply rule_hit. apply call_at_hit; assumption. }
  destruct pre as [|c p'].
  { exists []. apply rule_hit. apply call_at_hit; assumption. }
  destruct (call_at v ((c :: p') ++ opener v ++ X ++ rparen :: post))
    as [[Y r]|] eqn:EC.
  - destruct (starts (opener v) (c :: p')) eqn:Hpre.
    + pose proof (closed_before_head _ _ Hcl Hpre) as Hclose.
      destruct (starts_true _ _ Hpre) as [p1 Ep1].
      rewrite Ep1, has_char_app, opener_no_close in Hclose. simpl in Hclose.
      destruct (first_close _ _ Hclose) as [Y' [p2 [-> HY']]].
      assert (E : call_at v ((c :: p') ++ opener v ++ X ++ rparen :: post)
                  = Some (Y', p2 ++ opener v ++ X ++ rparen :: post)).
      { rewrite Ep1, <- !app_assoc. simpl.
        destruct Y' as [|y Y'].
        - exfalso. apply call_at_Some in EC. destruct EC as [EC [HY HYc]].
          rewrite Ep1, <- !app_assoc in EC. apply app_inv_head in EC.
          simpl in EC. destruct Y as [|y Y]; [congruence|].
          injection EC as Ey _. subst y. simpl in HYc. discriminate.
        - apply call_at_hit; [discriminate | exact HY']. }
      rewrite (rule_hit v _ _ _ E).
      destruct (IH p2) as [pre' Hpre'].
      * rewrite Ep1, !length_app in Hn. simpl in Hn. lia.
      * apply (closed_before_suffix v (opener v ++ Y' ++ [rparen])).
        rewrite <- !app_assoc. simpl. rewrite <- Ep1. exact Hcl.
      * rewrite Hpre'. exists (before_arg v ++ Y' ++ after_arg v ++ pre').
        rewrite <- !app_assoc. reflexivity.
    + exfalso.
      assert (Hst : starts (opener v) ((c :: p') ++ opener v ++ X ++ rparen :: post) = true).
      { apply call_at_Some in EC. destruct EC as [-> _]. apply starts_app. }
      apply starts_app_cases in Hst. rewrite Hpre in Hst.
      destruct Hst as [Hst | [p'' [Ej Hst]]]; [discriminate|].
      assert (Ek : skipn (length (c :: p')) (opener v) = p'').
      { rewrite Ej, skipn_app, skipn_all, Nat.sub_diag. reflexivity. }
      assert (Hlt : length (c :: p') < length (opener v)).
      { destruct p'' as [|y p''].
        - rewrite app_nil_r in Ej. rewrite <- Ej, starts_refl in Hpre. discriminate.
        - rewrite Ej, length_app. simpl. lia. }
      pose proof (clash_from_seq 1 _ _ _ (length (c :: p'))
                    (opener_inside_opener v v)) as Hc.
      rewrite Ek in Hc.
      rewrite clash_starts_l in Hst; [discriminate|].
      apply Hc. simpl in *. lia.
  - simpl. simpl in EC. rewrite rule_skip by exact EC.
    destruct (IH p') as [pre' Hpre'].
    + simpl in Hn. lia.
    + apply (closed_before_suffix v [c]). exact Hcl.
    + rewrite Hpre'. exists (c :: pre'). reflexivity.
Qed.

(** ** Inputs in which [InternalError(] only begins well-formed calls *)

Lemma app_same_length {A : Type} (a b u w : list A) :
  length a = length b -> a ++ u = b ++ w -> a = b /\ u = w.
Proof.
  revert b. induction a as [|x a IH]; intros [|y b] Hl H; simpl in *; try lia.
  - split; [reflexivity | exact H].
  - injection H as -> H. destruct (IH b) as [-> ->]; [lia | exact H |]. auto.
Qed.

Lemma only_calls_inside (s : text) : only_calls s = true -> inside_calls s.
Proof.
  unfold only_calls. intros H a b ->. rewrite forallb_forall in H.
  assert (Hin : In (length a) (seq 0 (length (a ++ txt "InternalError(" ++ b)))).
  { apply in_seq. rewrite !length_app. simpl. lia. }
  specialize (H (length a) Hin). cbv beta in H.
  assert (Esk : skipn (length a) (a ++ txt "InternalError(" ++ b)
                = txt "InternalError(" ++ b).
  { rewrite skipn_app, skipn_all, Nat.sub_diag. reflexivity. }
  rewrite Esk, starts_app in H. cbn [implb] in H.
  apply andb_true_iff in H. destruct H as [H9 Hp].
  apply Nat.leb_le in H9. unfold plain_call in Hp.
  destruct (call_at InternalError
              (skipn (length a - 9) (a ++ txt "InternalError(" ++ b)))
    as [[X r]|] eqn:EC; [|discriminate].
  apply call_at_Some in EC. destruct EC as [EC [HX _]].
  rewrite skipn_app in EC. replace (length a - 9 - length a) with 0 in EC by lia.
  rewrite skipn_O in EC.
  change (opener InternalError) with (txt "DbError::" ++ txt "InternalError(") in EC.
  rewrite <- !app_assoc in EC.
  apply app_same_length in EC; [|rewrite length_skipn; simpl; lia].
  destruct EC as [Ea EC]. apply app_inv_head in EC.
  exists (firstn (length a - 9) a), X, r. repeat split; try assumption.
  rewrite <- Ea. symmetry. apply firstn_skipn.
Qed.

Lemma needle_no_paren_free (X : text) :
  has_char lparen X = false -> ~ occurs (txt "InternalError(") X.
Proof.
  intros H Ho. apply (occurs_has_char _ _ lparen Ho) in H. discriminate.
Qed.

(** A text that ends with [p] followed by [a] ends with [D], which does
    not contain [p]: then [a] ends with [D]. *)
Lemma suffix_after (u a a' D : text) (p : ascii) :
  has_char p D = false -> (u ++ [p]) ++ a = a' ++ D -> exists a2, a = a2 ++ D.
Proof.
  intros Hp H. apply app_eq_app in H. destruct H as [l [[H1 H2] | [H1 H2]]].
  - destruct l as [|x l] using rev_ind.
    + exists []. simpl in H2. rewrite H2. reflexivity.
    + exfalso. rewrite app_assoc in H1. apply app_inj_tail in H1.
      destruct H1 as [_ <-]. rewrite H2, !has_char_app in Hp. simpl in Hp.
      rewrite Ascii.eqb_refl in Hp. rewrite orb_true_r in Hp. discriminate.
  - exists l. exact H2.
Qed.

(** The rule of [InternalError] leaves no [InternalError(] in such an
    input. *)
Lemma rule_clears (s : text) :
  inside_calls s -> ~ occurs (txt "InternalError(") (rule InternalError s).
Proof.
  induction s as [| c s Hc IH | X r HX HXc IH] using (scan_ind InternalError);
    intros Hin Ho.
  - destruct Ho as [a [b Ho]]. destruct a; discriminate Ho.
  - rewrite rule_skip in Ho by exact Hc.
    assert (Hin' : inside_calls s).
    { intros a b ->. destruct (Hin (c :: a) b eq_refl) as [a' [Y [r [Ea [Eb [HY HYp]]]]]].
      destruct a' as [|x a'].
      - exfalso.
        assert (E : c :: a ++ txt "InternalError(" ++ b
                    = opener InternalError ++ Y ++ rparen :: r).
        { change (c :: a ++ txt "InternalError(" ++ b)
            with ((c :: a) ++ txt "InternalError(" ++ b).
          rewrite Ea, Eb. reflexivity. }
        rewrite E, call_at_hit in Hc; [discriminate | exact HY |].
        unfold paren_free in HYp. apply andb_true_iff in HYp.
        rewrite !negb_true_iff in HYp. tauto.
      - simpl in Ea. injection Ea as -> ->.
        exists a', Y, r. auto. }
    apply occurs_cons in Ho. destruct Ho as [Ho | Ho]; [|exact (IH Hin' Ho)].
    rewrite <- (rule_skip InternalError c s Hc) in Ho.
    apply rule_start_back in Ho; [|reflexivity].
    destruct (starts_true _ _ Ho) as [b Eb].
    destruct (Hin [] b Eb) as [a' [Y [r [Ea _]]]].
    destruct a'; discriminate Ea.
  - assert (HXl : has_char lparen X = false).
    { destruct (Hin (txt "DbError::") (X ++ rparen :: r) eq_refl)
        as [a' [Y [r' [_ [Eb [_ HYp]]]]]].
      unfold paren_free in HYp. apply andb_true_iff in HYp.
      rewrite !negb_true_iff in HYp. destruct HYp as [HYl HYr].
      apply first_close_unique in Eb; [|assumption|assumption].
      destruct Eb as [-> _]. exact HYl. }
    assert (Hin' : inside_calls r).
    { intros a b ->.
      destruct (Hin ((opener InternalError ++ X ++ [rparen]) ++ a) b)
        as [a' [Y [r' [Ea [Eb HY]]]]].
      { rewrite <- !app_assoc. reflexivity. }
      rewrite app_assoc in Ea.
      apply suffix_after in Ea; [|reflexivity]. destruct Ea as [a2 ->].
      exists a2, Y, r'. auto. }
    rewrite (rule_hit InternalError _ X r) in Ho by (apply call_at_hit; assumption).
    rewrite !app_assoc in Ho. rewrite <- (app_assoc (before_arg InternalError)) in Ho.
    apply occurs_app_cases in Ho. destruct Ho as [[o [Hlt Ho]] | Ho].
    + rewrite needle_not_written in Ho; [discriminate | | exact Hlt].
      apply needle_no_paren_free. exact HXl.
    + exact (IH Hin' Ho).
Qed.

(** ** Texts in which a rule finds nothing *)

Lemma occurs_trans (p q s : text) : occurs p q -> occurs q s -> occurs p s.
Proof.
  intros [a [b ->]] [c [d ->]]. exists (c ++ a), (b ++ d).
  rewrite <- !app_assoc. reflexivity.
Qed.

Lemma rule_absent (v : variant) (s : text) :
  ~ occurs (opener v) s -> rule v s = s.
Proof.
  induction s as [|c s IH]; intros H; [reflexivity|].
  rewrite rule_skip.
  - f_equal. apply IH. intros Ho. apply H. apply (occurs_app_r _ [c]). exact Ho.
  - apply call_at_starts.
    destruct (starts (opener v) (c :: s)) eqn:E; [|reflexivity].
    exfalso. apply H. apply starts_occurs. exact E.
Qed.

(** The bare variant name occurs in the opener of its rule. *)
Lemma short_name_in_opener :
  occurs (txt "InternalError") (opener InternalError) /\
  occurs (txt "InvalidData") (opener InvalidData) /\
  occurs (txt "SignatureError") (opener SignatureError).
Proof. repeat split; apply contains_occurs; reflexivity. Qed.

Lemma written_no_close (v : variant) (X : text) :
  has_char rparen X = false ->
  has_char rparen (before_arg v ++ X ++ after_arg v) = false.
Proof.
  intros H. rewrite has_char_app, before_arg_no_close, has_char_app, H,
    after_arg_no_close. reflexivity.
Qed.

(** The whole script on the scenario: the file is rewritten, the
    confirmation is printed and the run ends without an exception. *)
Example run_scenario :
  let w := mkWorld (one_file (mkFile scenario_in true true)) [] [] in
  fst (run [] w) = inr tt /\
  option_map content (files (snd (run [] w)) target) = Some scenario_out /\
  stdout (snd (run [] w)) = [txt "Fixed error variants in src/graphql.rs"].
Proof. intros w. split; [|split]; vm_compute; reflexivity. Qed.

Lemma paren_free_chars (X : text) :
  paren_free X = true -> has_char lparen X = false /\ has_char rparen X = false.
Proof.
  unfold paren_free. rewrite andb_true_iff, !negb_true_iff. tauto.
Qed.

Lemma written_paren_free (v : variant) (X : text) :
  paren_free X = true -> paren_free (before_arg v ++ X ++ after_arg v) = true.
Proof.
  intros H. apply paren_free_chars in H. destruct H as [Hl Hr].
  unfold paren_free. rewrite !has_char_app, Hl, Hr.
  destruct v; reflexivity.
Qed.

(** * The claims *)

(** C1. The end-to-end scenario: the three tuple-style lines become the
    three struct-literal lines, each variant with its own two extra
    fields. *)
Theorem C1_end_to_end_scenario :
  fix_error_variants scenario_in = scenario_out.
Proof. vm_compute. reflexivity. Qed.

(** C2, as stated, fails in three ways: the rules anchor on the path
    [DbError] and leave a call under another path alone; a call inside
    the unclosed argument of an earlier call is taken as part of that
    argument; and an [InternalError(] that begins no call stays in the
    output. *)
Lemma C2_counterexample :
  contains (txt "Foo::InternalError { message: x, context: None, debug_info: None }")
    (fix_error_variants (txt "Foo::InternalError(x)")) = false /\
  contains (txt "InternalError(")
    (fix_error_variants (txt "Foo::InternalError(x)")) = true /\
  contains (txt "DbError::InternalError { message: x, context: None, debug_info: None }")
    (fix_error_variants (txt "DbError::InternalError(DbError::InternalError(x)")) = false /\
  contains (txt "InternalError(")
    (fix_error_variants (txt "DbError::InternalError(x) InternalError(y)")) = true.
Proof. repeat split; vm_compute; reflexivity. Qed.

(** C2, amended. Let the input contain a call [DbError::InternalError(X)]
    with [X] non-empty and free of parentheses, every earlier
    [DbError::InternalError(] being closed by a [)] before the call.
    Then the output contains
    [DbError::InternalError { message: X, context: None, debug_info: None }].
    If moreover every [InternalError(] of the input begins such a call
    under the path [DbError], the output contains no [InternalError(]. *)
Theorem C2_internal_error_call_converted (pre X post : text) :
  X <> [] -> paren_free X = true -> closed_before InternalError pre = true ->
  contains
    (txt "DbError::InternalError { message: " ++ X ++
     txt ", context: None, debug_info: None }")
    (fix_error_variants (pre ++ txt "DbError::InternalError(" ++ X ++ txt ")" ++ post))
  = true /\
  (only_calls (pre ++ txt "DbError::InternalError(" ++ X ++ txt ")" ++ post) = true ->
   contains (txt "InternalError(")
     (fix_error_variants (pre ++ txt "DbError::InternalError(" ++ X ++ txt ")" ++ post))
   = false).
Proof.
  intros HX Hp Hcl.
  destruct (paren_free_chars X Hp) as [Hl Hr].
  split.
  - destruct (rule_call_converted InternalError X post HX Hr (length pre) pre
                (le_n _) Hcl) as [pre' E].
    apply contains_occurs. rewrite fix_error_variants_rules.
    change (txt "DbError::InternalError(") with (opener InternalError).
    change (txt ")" ++ post) with (rparen :: post).
    rewrite E.
    change (txt "DbError::InternalError { message: " ++ X ++
            txt ", context: None, debug_info: None }")
      with (before_arg InternalError ++ X ++ after_arg InternalError).
    apply rule_keeps; [apply written_paren_free; exact Hp|].
    apply rule_keeps; [apply written_paren_free; exact Hp|].
    exists pre', (rule InternalError post). rewrite <- !app_assoc. reflexivity.
  - intros Ho. apply contains_false. intros Hoc.
    rewrite fix_error_variants_rules in Hoc.
    apply rule_no_new in Hoc. apply rule_no_new in Hoc.
    apply (rule_clears _ (only_calls_inside _ Ho)). exact Hoc.
Qed.

Lemma C2_witness :
  let pre := txt "return Err(DbError::InvalidData(n)); return Err(" in
  let X := quoted "boom" in
  let post := txt "); // DbError::InternalError(e)" in
  closed_before InternalError pre = true /\
  only_calls (pre ++ txt "DbError::InternalError(" ++ X ++ txt ")" ++ post) = true /\
  contains
    (txt "DbError::InternalError { message: " ++ X ++
     txt ", context: None, debug_info: None }")
    (fix_error_variants (pre ++ txt "DbError::InternalError(" ++ X ++ txt ")" ++ post))
  = true /\
  contains (txt "InternalError(")
    (fix_error_variants (pre ++ txt "DbError::InternalError(" ++ X ++ txt ")" ++ post))
  = false.
Proof.
  intros pre X post.
  assert (HX : X <> []) by discriminate.
  assert (Hp : paren_free X = true) by reflexivity.
  assert (Hcl : closed_before InternalError pre = true) by (vm_compute; reflexivity).
  assert (Ho : only_calls (pre ++ txt "DbError::InternalError(" ++ X ++ txt ")" ++ post)
               = true) by (vm_compute; reflexivity).
  pose proof (C2_internal_error_call_converted pre X post HX Hp Hcl) as [H1 H2].
  exact (conj Hcl (conj Ho (conj H1 (H2 Ho)))).
Defined.

(** C3. An input in which none of the three variant names occurs is
    returned unchanged. *)
Theorem C3_no_variant_name_unchanged (x : text) :
  contains (txt "InternalError") x = false ->
  contains (txt "InvalidData") x = false ->
  contains (txt "SignatureError") x = false ->
  fix_error_variants x = x.
Proof.
  intros H1 H2 H3. apply contains_false in H1, H2, H3.
  destruct short_name_in_opener as [S1 [S2 S3]].
  rewrite fix_error_variants_rules.
  rewrite (rule_absent InternalError x)
    by (intros Ho; apply H1; exact (occurs_trans _ _ _ S1 Ho)).
  rewrite (rule_absent InvalidData x)
    by (intros Ho; apply H2; exact (occurs_trans _ _ _ S2 Ho)).
  apply rule_absent. intros Ho. apply H3. exact (occurs_trans _ _ _ S3 Ho).
Qed.

Lemma C3_witness :
  let x := txt "fn main() { println!(); }" in
  contains (txt "InternalError") x = false /\ fix_error_variants x = x.
Proof.
  split; [reflexivity|].
  apply (C3_no_variant_name_unchanged (txt "fn main() { println!(); }"));
    reflexivity.
Defined.

(** C4. On [DbError::InvalidData(format!("bad {}", x))] the captured
    argument stops before the first [)]: the rule captures
    [format!("bad {}", x], leaves the second [)] behind, and the output
    is the known truncated form. *)
Theorem C4_nested_parenthesis_truncated :
  match_here (pattern InvalidData) format_call []
  = Some ([txt "format!(" ++ quoted "bad {}" ++ txt ", x"], txt ")") /\
  fix_error_variants format_call = format_call_out.
Proof. split; vm_compute; reflexivity. Qed.

(** C5, as stated, fails: when the argument of a call contains another
    call, the first run cuts the outer argument at the inner [)] and
    leaves the inner opener in place, and the second run matches it. *)
Lemma C5_counterexample :
  fix_error_variants (fix_error_variants nested_same)
  <> fix_error_variants nested_same.
Proof. vm_compute. discriminate. Qed.

(** C5, amended. On an input without nested calls (no captured argument
    contains the opener of a rule) the transformation is idempotent: the
    struct literals it writes match none of the three patterns. *)
Theorem C5_idempotent_unnested (x : text) :
  unnested x = true ->
  fix_error_variants (fix_error_variants x) = fix_error_variants x.
Proof.
  intros H. destruct (layout_exists x H) as [items [Hl <-]].
  rewrite fix_error_variants_render by exact Hl.
  rewrite fix_error_variants_rules, rules_render by exact Hl.
  apply render_ext. intros v. destruct v; reflexivity.
Qed.

Lemma C5_witness :
  unnested scenario_in = true /\
  fix_error_variants (fix_error_variants scenario_in) = fix_error_variants scenario_in.
Proof.
  split; [vm_compute; reflexivity|].
  apply (C5_idempotent_unnested scenario_in). vm_compute. reflexivity.
Defined.

(** C6, as stated, fails: with a call of [InvalidData] inside the
    argument of a call of [InternalError], the rule that runs first
    decides which fields end up inside the other's argument. *)
Lemma C6_counterexample :
  rule SignatureError (rule InternalError (rule InvalidData nested_other))
  <> fix_error_variants nested_other.
Proof. vm_compute. discriminate. Qed.

(** C6, amended. On an input without nested calls the three rules can
    be applied in any order: every order gives the result of the
    declaration order. *)
Theorem C6_order_independent_unnested (x : text) :
  unnested x = true ->
  rule SignatureError (rule InternalError (rule InvalidData x)) = fix_error_variants x /\
  rule InvalidData (rule SignatureError (rule InternalError x)) = fix_error_variants x /\
  rule InternalError (rule SignatureError (rule InvalidData x)) = fix_error_variants x /\
  rule InvalidData (rule InternalError (rule SignatureError x)) = fix_error_variants x /\
  rule InternalError (rule InvalidData (rule SignatureError x)) = fix_error_variants x.
Proof.
  intros H. destruct (layout_exists x H) as [items [Hl <-]].
  rewrite fix_error_variants_render by exact Hl.
  repeat split; rewrite rules_render by exact Hl;
    apply render_ext; intros v; destruct v; reflexivity.
Qed.

Lemma C6_witness :
  unnested scenario_in = true /\
  rule SignatureError (rule InternalError (rule InvalidData scenario_in))
  = fix_error_variants scenario_in.
Proof.
  assert (Hu : unnested scenario_in = true) by (vm_compute; reflexivity).
  split; [exact Hu|].
  exact (proj1 (C6_order_independent_unnested scenario_in Hu)).
Defined.

(** C7. When [src/graphql.rs] is missing or cannot be opened for
    reading, the run ends with the exception [open] raised and a
    non-zero status, and nothing has been written: the files and the
    standard output are as before. *)
Theorem C7_read_failure_writes_nothing (argv : list text) (w : world) :
  can_read w target = false ->
  (exists e, fst (run argv w) = inl e) /\
  exit_status (fst (run argv w)) = 1 /\
  files (snd (run argv w)) = files w /\
  stdout (snd (run argv w)) = stdout w.
Proof.
  unfold can_read, run, main, bind, read_file. cbn [files stdout].
  intros H. destruct (files w target) as [f|].
  - rewrite H. cbn. repeat split. exists PermissionError. reflexivity.
  - cbn. repeat split. exists FileNotFoundError. reflexivity.
Qed.

Lemma C7_witness :
  can_read (mkWorld empty_files [] []) target = false /\
  exit_status (fst (run [txt "fix_errors.py"] (mkWorld empty_files [] []))) = 1 /\
  files (snd (run [txt "fix_errors.py"] (mkWorld empty_files [] []))) = empty_files.
Proof.
  assert (H : can_read (mkWorld empty_files [] []) target = false) by reflexivity.
  pose proof (C7_read_failure_writes_nothing [txt "fix_errors.py"]
                (mkWorld empty_files [] []) H) as [_ [H1 [H2 _]]].
  exact (conj H (conj H1 H2)).
Defined.

(** C8. The arguments are ignored: two runs on the same files and
    standard output, with any two argument vectors, end with the same
    result, the same files and the same standard output. *)
Theorem C8_arguments_ignored (argv1 argv2 : list text) (w : world) :
  fst (run argv1 w) = fst (run argv2 w) /\
  files (snd (run argv1 w)) = files (snd (run argv2 w)) /\
  stdout (snd (run argv1 w)) = stdout (snd (run argv2 w)).
Proof.
  unfold run, main, bind, read_file, write_file, print, set_file.
  cbn [files stdout sys_argv].
  destruct (files w target) as [f|] eqn:E; cbn; [|auto].
  destruct (readable f); cbn; [|auto].
  rewrite E. destruct (writable f); cbn; auto.
Qed.

(** C9, as stated, fails: an empty call inside the argument of another
    call loses its [)] to the outer match. *)
Lemma C9_counterexample :
  contains (txt "DbError::InternalError()") nested_empty = true /\
  contains (txt "DbError::InternalError()") (fix_error_variants nested_empty) = false.
Proof. split; vm_compute; reflexivity. Qed.

(** C9, amended. No rule matches at a call with nothing between the
    parentheses, and on an input without nested calls every such call is
    in the output, unchanged, in front of the transformed rest. *)
Theorem C9_empty_call_kept_unnested (v : variant) (pre post : text) :
  (forall k, match_here (pattern k) (opener v ++ rparen :: post) [] = None) /\
  (unnested (pre ++ opener v ++ rparen :: post) = true ->
   exists pre',
     fix_error_variants (pre ++ opener v ++ rparen :: post)
     = pre' ++ opener v ++ rparen :: fix_error_variants post).
Proof.
  split.
  - intros k. rewrite match_here_pattern.
    destruct (variant_eqb v k) eqn:Ek.
    + apply variant_eqb_eq in Ek. subst k.
      destruct (call_at v (opener v ++ rparen :: post)) as [[Y r]|] eqn:EC;
        [|reflexivity].
      exfalso. apply call_at_Some in EC. destruct EC as [EC [HY HYc]].
      apply app_inv_head in EC. destruct Y as [|y Y]; [congruence|].
      simpl in EC. injection EC as Ey _. subst y. simpl in HYc. discriminate.
    + rewrite call_at_starts; [reflexivity|].
      apply clash_starts, opener_other. exact Ek.
  - intros H.
    assert (Hpost : unnested post = true).
    { apply (unnested_suffix (pre ++ opener v ++ [rparen])).
      rewrite <- !app_assoc. exact H. }
    destruct (layout_exists post Hpost) as [ipost [Hlp Ep]].
    destruct (layout_before (Empty v :: ipost) (opener v ++ rparen :: post))
      with (n := length pre) (pre := pre) as [i1 [Hl1 E1]].
    + apply layout_empty. exact Hlp.
    + cbn [render render_item]. rewrite Ep, <- app_assoc. reflexivity.
    + right. exists v, (rparen :: post). split; [reflexivity|].
      simpl. reflexivity.
    + apply le_n.
    + exact H.
    + exists (render (fun _ => true) i1).
      rewrite <- E1 at 1. rewrite <- Ep at 1.
      replace (render none_applied i1 ++ opener v ++ rparen :: render none_applied ipost)
        with (render none_applied (i1 ++ Empty v :: ipost)).
      * rewrite fix_error_variants_render by exact Hl1.
        rewrite render_app. cbn [render render_item].
        rewrite <- (fix_error_variants_render ipost Hlp), Ep, <- app_assoc.
        reflexivity.
      * rewrite render_app. cbn [render render_item]. rewrite <- app_assoc.
        reflexivity.
Qed.

Lemma C9_witness :
  let pre := txt "return Err(DbError::InvalidData(x)); let e = " in
  let post := txt "; return Err(DbError::SignatureError(s));" in
  unnested (pre ++ opener InternalError ++ rparen :: post) = true /\
  exists pre',
    fix_error_variants (pre ++ opener InternalError ++ rparen :: post)
    = pre' ++ opener InternalError ++ rparen :: fix_error_variants post.
Proof.
  intros pre post.
  assert (Hu : unnested (pre ++ opener InternalError ++ rparen :: post) = true)
    by (vm_compute; reflexivity).
  split; [exact Hu|].
  exact (proj2 (C9_empty_call_kept_unnested InternalError pre post) Hu).
Defined.

(** C10. A match spans line breaks: when the opener of [InternalError]
    and the first [)] after it are on different lines, the newline is
    part of the captured argument and the call is rewritten. *)
Theorem C10_match_spans_newline (a b : text) :
  has_char rparen a = false -> has_char rparen b = false ->
  fix_error_variants (txt "DbError::InternalError(" ++ a ++ newline :: b ++ txt ")")
  = txt "DbError::InternalError { message: " ++ (a ++ newline :: b) ++
    txt ", context: None, debug_info: None }".
Proof.
  intros Ha Hb.
  assert (HX : has_char rparen (a ++ newline :: b) = false).
  { rewrite has_char_app, Ha. simpl. exact Hb. }
  assert (E : rule InternalError
                (txt "DbError::InternalError(" ++ a ++ newline :: b ++ txt ")")
              = before_arg InternalError ++ (a ++ newline :: b) ++
                after_arg InternalError).
  { rewrite (rule_hit InternalError _ (a ++ newline :: b) []).
    - rewrite rule_nil, app_nil_r. reflexivity.
    - change (txt "DbError::InternalError(") with (opener InternalError).
      replace (a ++ newline :: b ++ txt ")") with ((a ++ newline :: b) ++ rparen :: [])
        by (rewrite <- app_assoc; reflexivity).
      apply call_at_hit; [destruct a; discriminate | exact HX]. }
  rewrite fix_error_variants_rules, E.
  rewrite (rule_no_close InvalidData) by (apply written_no_close; exact HX).
  rewrite (rule_no_close SignatureError) by (apply written_no_close; exact HX).
  reflexivity.
Qed.

Lemma C10_witness :
  fix_error_variants
    (txt "DbError::InternalError(" ++ [] ++ newline :: (txt "  " ++ quoted "boom" ++ [newline])
       ++ txt ")")
  = txt "DbError::InternalError { message: " ++
    ([] ++ newline :: (txt "  " ++ quoted "boom" ++ [newline])) ++
    txt ", context: None, debug_info: None }".
Proof.
  apply (C10_match_spans_newline [] (txt "  " ++ quoted "boom" ++ [newline]));
    reflexivity.
Defined.

(** * Further properties of the transformation *)

(** ** What a pattern matches *)

(** X1. A pattern matches at the front of a text exactly when the text
    begins with the opener of its variant, goes on with a non-empty run
    free of [)] and then a [)]; the one group is that run, and the scan
    resumes right after the [)]. *)
Theorem match_here_pattern_iff (v : variant) (s : text) (groups : list text) (rest : text) :
  match_here (pattern v) s [] = Some (groups, rest) <->
  exists X, groups = [X] /\ s = opener v ++ X ++ rparen :: rest /\
            X <> [] /\ has_char rparen X = false.
Proof.
  rewrite match_here_pattern. split.
  - destruct (call_at v s) as [[X r]|] eqn:E; [|discriminate].
    intros H. injection H as <- <-. apply call_at_Some in E.
    exists X. tauto.
  - intros [X [-> [Hs [HX Hc]]]].
    assert (E : call_at v s = Some (X, rest)) by (apply call_at_Some; auto).
    rewrite E. reflexivity.
Qed.

(** X2. The three patterns exclude one another: where one matches, the
    patterns of the other two variants do not. *)
Theorem patterns_exclusive (v k : variant) (s : text) (m : list text * text) :
  match_here (pattern v) s [] = Some m -> v <> k ->
  match_here (pattern k) s [] = None.
Proof.
  rewrite !match_here_pattern. intros H Hvk.
  destruct (call_at v s) as [[X r]|] eqn:E; [|discriminate].
  apply call_at_Some in E. destruct E as [-> _].
  rewrite call_at_starts; [reflexivity|].
  apply clash_starts, opener_other.
  destruct (variant_eqb v k) eqn:Ek; [|reflexivity].
  apply variant_eqb_eq in Ek. contradiction.
Qed.

Lemma patterns_exclusive_witness :
  match_here (pattern InvalidData) format_call []
  = Some ([txt "format!(" ++ quoted "bad {}" ++ txt ", x"], txt ")") /\
  match_here (pattern InternalError) format_call [] = None.
Proof.
  assert (H : match_here (pattern InvalidData) format_call []
              = Some ([txt "format!(" ++ quoted "bad {}" ++ txt ", x"], txt ")"))
    by (vm_compute; reflexivity).
  assert (Hd : InvalidData <> InternalError) by discriminate.
  exact (conj H (patterns_exclusive InvalidData InternalError format_call _ H Hd)).
Defined.

(** ** Texts the transformation leaves alone *)

(** X3. A text without a closing parenthesis, the empty text among
    them, is returned as it is. *)
Theorem fix_error_variants_no_close (x : text) :
  has_char rparen x = false -> fix_error_variants x = x.
Proof.
  intros H. rewrite fix_error_variants_rules.
  rewrite (rule_no_close InternalError x H), (rule_no_close InvalidData x H).
  apply rule_no_close. exact H.
Qed.

Lemma fix_error_variants_no_close_witness :
  has_char rparen [] = false /\ fix_error_variants [] = [] /\
  fix_error_variants (txt "Err(DbError::InternalError(e") = txt "Err(DbError::InternalError(e".
Proof.
  assert (H0 : has_char rparen [] = false) by reflexivity.
  assert (H1 : has_char rparen (txt "Err(DbError::InternalError(e") = false)
    by reflexivity.
  exact (conj H0 (conj (fix_error_variants_no_close [] H0)
                       (fix_error_variants_no_close _ H1))).
Defined.

(** ** Lengths and brackets *)

Lemma count_char_app (c : ascii) (a b : text) :
  count_char c (a ++ b) = count_char c a + count_char c b.
Proof. unfold count_char. rewrite filter_app, length_app. reflexivity. Qed.

Lemma growth_pos (v : variant) : 0 < growth v.
Proof. destruct v; vm_compute; lia. Qed.

Lemma growth_eq (v : variant) :
  length (before_arg v) + length (after_arg v) = length (opener v) + 1 + growth v.
Proof. destruct v; reflexivity. Qed.

(** One rule: every rewritten call lengthens the text by [growth] and
    trades one [(] and one [)] for one [{] and one [}]. *)
Lemma rule_tally (v : variant) (s : text) :
  exists n,
    length (rule v s) = length s + n * growth v /\
    count_char lparen s = count_char lparen (rule v s) + n /\
    count_char rparen s = count_char rparen (rule v s) + n /\
    count_char lbrace (rule v s) = count_char lbrace s + n /\
    count_char rbrace (rule v s) = count_char rbrace s + n.
Proof.
  induction s as [| c s Hc IH | X r HX HXc IH] using (scan_ind v).
  - exists 0. repeat split.
  - destruct IH as [n [Hl [H1 [H2 [H3 H4]]]]]. exists n.
    rewrite rule_skip by exact Hc.
    change (c :: s) with ([c] ++ s). change (c :: rule v s) with ([c] ++ rule v s).
    rewrite !count_char_app, !length_app. repeat split; lia.
  - destruct IH as [n [Hl [H1 [H2 [H3 H4]]]]]. exists (S n).
    rewrite (rule_hit v _ X r) by (apply call_at_hit; assumption).
    change (rparen :: r) with ([rparen] ++ r).
    rewrite !count_char_app, !length_app.
    pose proof (growth_eq v) as Hg.
    assert (K : count_char lparen (opener v) = 1 /\
                count_char rparen (opener v) = 0 /\
                count_char lbrace (opener v) = 0 /\
                count_char rbrace (opener v) = 0 /\
                count_char lparen (before_arg v) = 0 /\
                count_char rparen (before_arg v) = 0 /\
                count_char lbrace (before_arg v) = 1 /\
                count_char rbrace (before_arg v) = 0 /\
                count_char lparen (after_arg v) = 0 /\
                count_char rparen (after_arg v) = 0 /\
                count_char lbrace (after_arg v) = 0 /\
                count_char rbrace (after_arg v) = 1)
      by (destruct v; repeat split).
    destruct K as [K1 [K2 [K3 [K4 [K5 [K6 [K7 [K8 [K9 [K10 [K11 K12]]]]]]]]]]].
    rewrite K1, K2, K3, K4, K5, K6, K7, K8, K9, K10, K11, K12.
    change (count_char lparen [rparen]) with 0.
    change (count_char rparen [rparen]) with 1.
    change (count_char lbrace [rparen]) with 0.
    change (count_char rbrace [rparen]) with 0.
    change (length [rparen]) with 1.
    repeat split; lia.
Qed.

Lemma rule_length (v : variant) (s : text) : length s <= length (rule v s).
Proof. destruct (rule_tally v s) as [n [H _]]. lia. Qed.

(** A rule that returns its input found no match in it. *)
Lemma rule_fixed_no_match (v : variant) (s : text) :
  rule v s = s -> forall a b, s = a ++ b -> call_at v b = None.
Proof.
  induction s as [| c s Hc IH | X r HX HXc IH] using (scan_ind v); intros H a b E.
  - destruct a; [|discriminate]. simpl in E. subst b.
    apply call_at_no_close. reflexivity.
  - rewrite rule_skip in H by exact Hc. injection H as H.
    destruct a as [|x a].
    + simpl in E. subst b. exact Hc.
    + injection E as _ E. apply (IH H a b E).
  - exfalso. rewrite (rule_hit v _ X r) in H by (apply call_at_hit; assumption).
    apply (f_equal (@length ascii)) in H. rewrite !length_app in H. simpl in H.
    pose proof (rule_length v r). pose proof (growth_eq v). pose proof (growth_pos v).
    lia.
Qed.

Lemma rule_no_match_fixed (v : variant) (s : text) :
  (forall a b, s = a ++ b -> call_at v b = None) -> rule v s = s.
Proof.
  induction s as [|c s IH]; intros H; [reflexivity|].
  rewrite rule_skip by (apply (H [] (c :: s)); reflexivity).
  f_equal. apply IH. intros a b E. apply (H (c :: a) b). rewrite E. reflexivity.
Qed.

Lemma rule_same_length (v : variant) (s : text) :
  length (rule v s) = length s -> rule v s = s.
Proof.
  intros H. apply rule_no_match_fixed.
  induction s as [| c s Hc IH | X r HX HXc IH] using (scan_ind v); intros a b E.
  - destruct a; [|discriminate]. simpl in E. subst b.
    apply call_at_no_close. reflexivity.
  - rewrite rule_skip in H by exact Hc. simpl in H. injection H as H.
    destruct a as [|x a].
    + simpl in E. subst b. exact Hc.
    + injection E as _ E. apply (IH H a b E).
  - exfalso. rewrite (rule_hit v _ X r) in H by (apply call_at_hit; assumption).
    rewrite !length_app in H. simpl in H.
    pose proof (rule_length v r). pose proof (growth_eq v). pose proof (growth_pos v).
    lia.
Qed.

(** X4. The transformation never shortens a text, and a result of the
    same length is the input itself. *)
Theorem fix_error_variants_length (x : text) :
  length x <= length (fix_error_variants x) /\
  (length (fix_error_variants x) = length x -> fix_error_variants x = x).
Proof.
  rewrite fix_error_variants_rules.
  pose proof (rule_length InternalError x) as L1.
  pose proof (rule_length InvalidData (rule InternalError x)) as L2.
  pose proof (rule_length SignatureError (rule InvalidData (rule InternalError x))) as L3.
  split; [lia|]. intros H.
  assert (E1 : rule InternalError x = x) by (apply rule_same_length; lia).
  rewrite E1 in *.
  assert (E2 : rule InvalidData x = x) by (apply rule_same_length; lia).
  rewrite E2 in *. apply rule_same_length. exact H.
Qed.

Lemma fix_error_variants_length_witness :
  length (fix_error_variants (txt "Err(DbError::Timeout(t))"))
  = length (txt "Err(DbError::Timeout(t))") /\
  fix_error_variants (txt "Err(DbError::Timeout(t))") = txt "Err(DbError::Timeout(t))".
Proof.
  assert (H : length (fix_error_variants (txt "Err(DbError::Timeout(t))"))
              = length (txt "Err(DbError::Timeout(t))")) by (vm_compute; reflexivity).
  exact (conj H (proj2 (fix_error_variants_length _) H)).
Defined.

(** X5. The transformation returns its input exactly when none of the
    three patterns matches at any position of the input. *)
Theorem fix_error_variants_unchanged_iff (x : text) :
  fix_error_variants x = x <->
  (forall v a b, x = a ++ b -> match_here (pattern v) b [] = None).
Proof.
  split.
  - intros H v a b E.
    rewrite fix_error_variants_rules in H.
    pose proof (rule_length InternalError x) as L1.
    pose proof (rule_length InvalidData (rule InternalError x)) as L2.
    pose proof (rule_length SignatureError (rule InvalidData (rule InternalError x)))
      as L3.
    assert (Hlen : length (rule SignatureError (rule InvalidData (rule InternalError x)))
                   = length x) by (rewrite H; reflexivity).
    assert (E1 : rule InternalError x = x) by (apply rule_same_length; lia).
    rewrite E1 in *.
    assert (E2 : rule InvalidData x = x) by (apply rule_same_length; lia).
    rewrite E2 in *.
    rewrite match_here_pattern.
    assert (N : call_at v b = None).
    { destruct v; eapply rule_fixed_no_match; eassumption. }
    rewrite N. reflexivity.
  - intros H. rewrite fix_error_variants_rules.
    assert (N : forall v, rule v x = x).
    { intros v. apply rule_no_match_fixed. intros a b E.
      specialize (H v a b E). rewrite match_here_pattern in H.
      destruct (call_at v b) as [[X r]|]; [discriminate | reflexivity]. }
    rewrite !N. reflexivity.
Qed.

(** X6. The transformation keeps brackets in balance: for some number
    [n] of rewritten calls, the output has [n] fewer [(] and [n] fewer
    [)] than the input, and [n] more opening and [n] more closing
    braces. *)
Theorem fix_error_variants_brackets (x : text) :
  exists n,
    count_char lparen x = count_char lparen (fix_error_variants x) + n /\
    count_char rparen x = count_char rparen (fix_error_variants x) + n /\
    count_char lbrace (fix_error_variants x) = count_char lbrace x + n /\
    count_char rbrace (fix_error_variants x) = count_char rbrace x + n.
Proof.
  rewrite fix_error_variants_rules.
  destruct (rule_tally InternalError x) as [n1 [_ [A1 [A2 [A3 A4]]]]].
  destruct (rule_tally InvalidData (rule InternalError x))
    as [n2 [_ [B1 [B2 [B3 B4]]]]].
  destruct (rule_tally SignatureError (rule InvalidData (rule InternalError x)))
    as [n3 [_ [C1 [C2 [C3 C4]]]]].
  exists (n1 + n2 + n3). repeat split; lia.
Qed.

(** ** What the transformation keeps *)

(** X7. A text free of parentheses that occurs in the input occurs in
    the output: the rules only ever replace a [(] and a [)]. *)
Theorem fix_error_variants_keeps (p x : text) :
  paren_free p = true -> contains p x = true ->
  contains p (fix_error_variants x) = true.
Proof.
  intros Hp H. apply contains_occurs in H. apply contains_occurs.
  rewrite fix_error_variants_rules.
  apply rule_keeps; [exact Hp|]. apply rule_keeps; [exact Hp|].
  apply rule_keeps; assumption.
Qed.

Lemma fix_error_variants_keeps_witness :
  paren_free (txt "use crate::error::DbError;") = true /\
  contains (txt "use crate::error::DbError;")
    (fix_error_variants (txt "use crate::error::DbError;" ++ newline :: scenario_in))
  = true.
Proof.
  assert (Hp : paren_free (txt "use crate::error::DbError;") = true) by reflexivity.
  assert (Hc : contains (txt "use crate::error::DbError;")
                 (txt "use crate::error::DbError;" ++ newline :: scenario_in) = true)
    by (vm_compute; reflexivity).
  exact (conj Hp (fix_error_variants_keeps _ _ Hp Hc)).
Defined.

(** X8. The text before the first [(] of the input stays where it is:
    a beginning of the input without [(] is a beginning of the
    output. *)
Theorem fix_error_variants_keeps_start (p x : text) :
  has_char lparen p = false -> starts p x = true ->
  starts p (fix_error_variants x) = true.
Proof.
  intros Hp H. rewrite fix_error_variants_rules.
  apply rule_keeps_start; [exact Hp|]. apply rule_keeps_start; [exact Hp|].
  apply rule_keeps_start; assumption.
Qed.

Lemma fix_error_variants_keeps_start_witness :
  has_char lparen (txt "return Err") = false /\
  starts (txt "return Err") (fix_error_variants scenario_in) = true.
Proof.
  assert (Hp : has_char lparen (txt "return Err") = false) by reflexivity.
  assert (Hs : starts (txt "return Err") scenario_in = true) by reflexivity.
  exact (conj Hp (fix_error_variants_keeps_start _ _ Hp Hs)).
Defined.

(** ** Calls of every variant *)

(** X9. In an input without nested calls, a call of any of the three
    variants with a non-empty argument free of [)] is rewritten to the
    struct literal of that variant: the argument becomes the message
    and the two further fields of the variant are [None].  The text
    after the call is transformed on its own. *)
Theorem call_rewritten_unnested (v : variant) (pre X post : text) :
  X <> [] -> has_char rparen X = false ->
  unnested (pre ++ opener v ++ X ++ rparen :: post) = true ->
  exists pre',
    fix_error_variants (pre ++ opener v ++ X ++ rparen :: post)
    = pre' ++ before_arg v ++ X ++ after_arg v ++ fix_error_variants post.
Proof.
  intros HX Hc H.
  assert (Hcall : unnested (opener v ++ X ++ rparen :: post) = true)
    by (apply (unnested_suffix pre); exact H).
  assert (Hpost : unnested post = true).
  { apply (unnested_suffix (pre ++ opener v ++ X ++ [rparen])).
    rewrite <- !app_assoc. exact H. }
  assert (Hno : no_opener X = true).
  { apply (unnested_head _ v X post Hcall). apply call_at_hit; assumption. }
  destruct (layout_exists post Hpost) as [ipost [Hlp Ep]].
  destruct (layout_before (Call v X :: ipost) (opener v ++ X ++ rparen :: post))
    with (n := length pre) (pre := pre) as [i1 [Hl1 E1]].
  - apply layout_call; assumption.
  - cbn [render render_item]. unfold none_applied at 1.
    rewrite Ep, <- !app_assoc. reflexivity.
  - right. exists v, (X ++ rparen :: post). split; [reflexivity|].
    rewrite has_char_app. simpl. apply orb_true_r.
  - apply le_n.
  - exact H.
  - exists (render (fun _ => true) i1).
    replace (pre ++ opener v ++ X ++ rparen :: post)
      with (render none_applied (i1 ++ Call v X :: ipost)).
    + rewrite fix_error_variants_render by exact Hl1.
      rewrite render_app. cbn [render render_item].
      rewrite <- (fix_error_variants_render ipost Hlp), Ep, <- !app_assoc.
      reflexivity.
    + rewrite render_app. cbn [render render_item]. unfold none_applied at 2.
      rewrite E1, Ep, <- !app_assoc. reflexivity.
Qed.

Lemma call_rewritten_unnested_witness :
  let pre := txt "if bad { return Err(" in
  let X := txt "format!" ++ quoted "no key" in
  let post := txt "); } Err(DbError::InvalidData(e))" in
  unnested (pre ++ opener SignatureError ++ X ++ rparen :: post) = true /\
  exists pre',
    fix_error_variants (pre ++ opener SignatureError ++ X ++ rparen :: post)
    = pre' ++ before_arg SignatureError ++ X ++ after_arg SignatureError ++
      fix_error_variants post.
Proof.
  intros pre X post.
  assert (HX : X <> []) by discriminate.
  assert (Hc : has_char rparen X = false) by reflexivity.
  assert (Hu : unnested (pre ++ opener SignatureError ++ X ++ rparen :: post) = true)
    by (vm_compute; reflexivity).
  exact (conj Hu (call_rewritten_unnested SignatureError pre X post HX Hc Hu)).
Defined.

(** * Further properties of the script *)

Lemma run_unfold (argv : list text) (w : world) :
  run argv w =
  match files w target with
  | None => (inl FileNotFoundError, mkWorld (files w) (stdout w) argv)
  | Some f =>
      if readable f then
        if writable f then
          (inr tt,
           mkWorld (fun q => if String.eqb q target
                             then Some (mkFile (fix_error_variants (content f))
                                               (readable f) true)
                             else files w q)
                   (stdout w ++ [confirmation]) argv)
        else (inl PermissionError, mkWorld (files w) (stdout w) argv)
      else (inl PermissionError, mkWorld (files w) (stdout w) argv)
  end.
Proof.
  unfold run, main, bind, read_file, write_file, print, set_file.
  cbn [files stdout sys_argv].
  destruct (files w target) as [f|] eqn:E; [|reflexivity].
  destruct (readable f) eqn:Er; [|reflexivity].
  cbn [files stdout sys_argv]. rewrite E, Er.
  destruct (writable f); reflexivity.
Qed.



(** X11. With the target readable but not writable, the run ends with
    the exception of [open], after the text has been transformed and
    before anything is written: the files and the standard output are
    as before and no confirmation is printed. *)
Theorem run_write_failure (argv : list text) (w : world) (f : file) :
  files w target = Some f -> readable f = true -> writable f = false ->
  fst (run argv w) = inl PermissionError /\
  exit_status (fst (run argv w)) = 1 /\
  files (snd (run argv w)) = files w /\
  stdout (snd (run argv w)) = stdout w.
Proof.
  intros Hf Hr Hw. rewrite run_unfold, Hf, Hr, Hw. cbn. repeat split.
Qed.

Lemma run_write_failure_witness :
  let f := mkFile scenario_in true false in
  let w := mkWorld (one_file f) [] [] in
  files w target = Some f /\
  fst (run [] w) = inl PermissionError /\
  files (snd (run [] w)) = files w.
Proof.
  intros f w.
  assert (Hf : files w target = Some f) by reflexivity.
  pose proof (run_write_failure [] w f Hf eq_refl eq_refl) as [H1 [_ [H2 _]]].
  exact (conj Hf (conj H1 H2)).
Defined.

(** X12. Whatever the outcome, the run touches no file but the
    target. *)
Theorem run_other_files (argv : list text) (w : world) (q : string) :
  String.eqb q target = false ->
  files (snd (run argv w)) q = files w q.
Proof.
  intros Hq. rewrite run_unfold.
  destruct (files w target) as [f|]; [|reflexivity].
  destruct (readable f); [|reflexivity].
  destruct (writable f); [|reflexivity].
  cbn. rewrite Hq. reflexivity.
Qed.

Lemma run_other_files_witness :
  let other := mkFile (txt "fn main() {}") true true in
  let w := mkWorld (fun q => if String.eqb q "src/main.rs" then Some other
                             else one_file (mkFile scenario_in true true) q) [] [] in
  String.eqb "src/main.rs" target = false /\
  files (snd (run [] w)) "src/main.rs"%string = Some other.
Proof.
  intros other w.
  assert (Hq : String.eqb "src/main.rs" target = false) by reflexivity.
  pose proof (run_other_files [] w "src/main.rs" Hq) as H.
  exact (conj Hq H).
Defined.




(** * One substitution, piece by piece *)

Lemma call_at_close_start (v : variant) (b : text) : call_at v (rparen :: b) = None.
Proof. apply call_at_starts. destruct v; reflexivity. Qed.

(** A match that begins before a [)] ends at that [)] or before it. *)
Lemma call_at_before_close (v : variant) (a b X r : text) :
  call_at v (a ++ rparen :: b) = Some (X, r) ->
  (call_at v (a ++ [rparen]) = Some (X, []) /\ r = b) \/
  (exists a2, call_at v (a ++ [rparen]) = Some (X, a2 ++ [rparen]) /\
              r = a2 ++ rparen :: b /\ length a2 < length a).
Proof.
  intros H. apply call_at_Some in H. destruct H as [E [HX Hc]].
  assert (Hox : has_char rparen (opener v ++ X) = false)
    by (rewrite has_char_app, opener_no_close, Hc; reflexivity).
  rewrite app_assoc in E.
  destruct (has_char rparen a) eqn:Ha.
  - destruct (first_close _ _ Ha) as [a1 [a2 [-> Ha1]]].
    rewrite <- app_assoc in E. simpl in E.
    apply first_close_unique in E; [|assumption|assumption].
    destruct E as [-> <-]. right. exists a2. split; [|split].
    + rewrite <- !app_assoc. simpl. apply call_at_hit; assumption.
    + reflexivity.
    + rewrite !length_app. simpl. lia.
  - apply first_close_unique in E; [|assumption|assumption].
    destruct E as [-> <-]. left. split; [|reflexivity].
    rewrite <- !app_assoc. apply call_at_hit; assumption.
Qed.

Lemma call_at_extend (v : variant) (s b X r : text) :
  call_at v s = Some (X, r) -> call_at v (s ++ b) = Some (X, r ++ b).
Proof.
  intros H. apply call_at_Some in H. destruct H as [-> [HX Hc]].
  rewrite <- !app_assoc. simpl. apply call_at_hit; assumption.
Qed.

(** X14. Each of the three substitutions works piece by piece: the text
    after a [)] is rewritten as it would be on its own, whatever stands
    before. *)
Theorem rule_after_close (v : variant) (a b : text) :
  rule v (a ++ rparen :: b) = rule v (a ++ [rparen]) ++ rule v b.
Proof.
  remember (length a) as n eqn:Hn. revert a Hn.
  induction n as [n IH] using lt_wf_ind. intros a Hn.
  destruct a as [|c a].
  - simpl. rewrite !rule_skip by apply call_at_close_start. reflexivity.
  - destruct (call_at v ((c :: a) ++ rparen :: b)) as [[X r]|] eqn:E.
    + rewrite (rule_hit v _ X r E).
      apply call_at_before_close in E.
      destruct E as [[E ->] | [a2 [E [-> Hlt]]]].
      * rewrite (rule_hit v _ X [] E). rewrite rule_nil, <- !app_assoc. reflexivity.
      * rewrite (rule_hit v _ X _ E).
        rewrite (IH (length a2)) by (subst n; auto).
        rewrite <- !app_assoc. reflexivity.
    + assert (E' : call_at v ((c :: a) ++ [rparen]) = None).
      { destruct (call_at v ((c :: a) ++ [rparen])) as [[X r]|] eqn:E'; [|reflexivity].
        apply (call_at_extend v _ b) in E'.
        rewrite <- app_assoc in E'. simpl in E'. simpl in E. congruence. }
      simpl in *. rewrite !rule_skip by assumption.
      rewrite (IH (length a)) by (subst n; simpl; auto). reflexivity.
Qed.
